(** * The event queue core of synergy: lib/base/CEventQueue.cpp

    A shallow embedding of [CEventQueue] and of the nested classes
    [CEventQueue::CTimer] and [CEventQueue::CTypeTarget], followed by the
    properties of the queue's specification.

    Conventions of the embedding.
    - [UInt32] values ([CEvent::Type], event ids, counts) are integers in
      [Z]; where the source increments or converts one, the reduction
      modulo [2^32] is written out ([wrap32]).
    - Pointers ([void*] targets and payloads, [IEventJob*],
      [CEventQueueTimer*]) are addresses in [Z], [NULL] being [0].
    - A [double] is an exact rational in [Q]: comparisons and arithmetic
      are those of the source, rounding, infinities and NaN are left out.
    - A method is a computation in the monad [CEventQueue.M]: it threads
      the queue object and records the calls that leave the queue
      ([CEvent::deleteData], [IEventJob::run], [delete]) in a trace.
    - A parameter passed by reference is passed in and returned.
    - The wall clock is an input: a method that reads a stopwatch takes the
      reading of the wall clock at that moment ([now]).
    - [CArchMutexLock] is not modelled: every method is one atomic step. *)

From Stdlib Require Import ZArith QArith Qround Lia Lqa.
From stdpp Require Import gmap strings list fin_maps fin_sets sorting.

Local Open Scope Z_scope.

(** ** Machine integers, pointers and doubles *)

Abbreviation UInt32 := Z (only parsing).
Abbreviation ptr := Z (only parsing).
Abbreviation double := Q (only parsing).

Definition NULL : ptr := 0.

Definition wrap32 (x : Z) : UInt32 := x mod 2 ^ 32.

Definition Qltb (x y : double) : bool := negb (Qle_bool y x).

(** Conversion of a [double] to an integer discards the fraction. *)
Definition Qtrunc (x : double) : Z :=
  if Qle_bool 0 x then Qfloor x else Qceiling x.

(** [static_cast<UInt32>(x)].  C++ leaves the conversion undefined when the
    truncated value does not fit; the model reduces it modulo [2^32], and
    the properties below that speak of the converted value assume it fits. *)
Definition static_cast_UInt32 (x : double) : UInt32 := wrap32 (Qtrunc x).

(** ** CEvent *)

Module CEvent.

(** Modelled from the spec: CEvent.h is not among the sources.  An event
    carries a type, a target, an optional payload and flags; the reserved
    types are Unknown = 0, Quit, System, Timer and Last, and dynamically
    allocated types start at Last. *)
Record t : Type := mk {
  getType : UInt32;
  getTarget : ptr;
  getData : ptr;
  getFlags : UInt32
}.

Definition kUnknown : UInt32 := 0.
Definition kQuit : UInt32 := 1.
Definition kSystem : UInt32 := 2.
Definition kTimer : UInt32 := 3.
Definition kLast : UInt32 := 4.

(** [CEvent()] *)
Definition default : t := mk kUnknown NULL NULL 0.

(** [CEvent(type, target, data)] *)
Definition make (type : UInt32) (target data : ptr) : t := mk type target data 0.

End CEvent.

(** ** CTimerEvent: the payload of a Timer event *)

Module CTimerEvent.

Record t : Type := mk {
  m_timer : ptr;
  m_count : UInt32
}.

End CTimerEvent.

(** ** CStopwatch *)

Module CStopwatch.

(** Modelled from the spec: CStopwatch.h is not among the sources.  The
    clock is a stopwatch that yields the seconds elapsed since its last
    reset; it is represented by the wall-clock time of that reset. *)
Record t : Type := mk { m_mark : double }.

(** [CStopwatch timer(true)] at wall-clock time [now] *)
Definition start (now : double) : t := mk now.

Definition getTime (now : double) (s : t) : double := (now - m_mark s)%Q.

Definition reset (now : double) (s : t) : t := mk now.

End CStopwatch.

(** ** CEventQueue::CTimer *)

Module CTimer.

Record t : Type := mk {
  m_timer : ptr;
  m_timeout : double;
  m_target : ptr;
  m_oneShot : bool;
  m_time : double
}.

(** [CTimer(timer, timeout, initialTime, target, oneShot)]; the assertion
    [m_timeout > 0.0] is a precondition of the callers. *)
Definition make (timer : ptr) (timeout initialTime : double) (target : ptr)
    (oneShot : bool) : t :=
  mk timer timeout target oneShot initialTime.

Definition with_time (time : double) (x : t) : t :=
  mk (m_timer x) (m_timeout x) (m_target x) (m_oneShot x) time.

Definition reset (x : t) : t := with_time (m_timeout x) x.

(** [operator-=] *)
Definition sub (dt : double) (x : t) : t := with_time (m_time x - dt)%Q x.

(** [operator double()] *)
Definition to_double (x : t) : double := m_time x.

Definition isOneShot (x : t) : bool := m_oneShot x.
Definition getTimer (x : t) : ptr := m_timer x.
Definition getTarget (x : t) : ptr := m_target x.

(** Both members of [event] are assigned: the count is [0] unless the
    remaining time is at most [0.0]. *)
Definition fillEvent (x : t) (event : CTimerEvent.t) : CTimerEvent.t :=
  CTimerEvent.mk (m_timer x)
    (if Qle_bool (m_time x) 0
     then static_cast_UInt32 ((m_timeout x - m_time x) / m_timeout x)%Q
     else 0).

(** [operator<] *)
Definition lt (x y : t) : bool := Qltb (m_time x) (m_time y).

End CTimer.

(** ** CPriorityQueue<CTimer> *)

Module CPriorityQueue.

(** Modelled from the spec: CPriorityQueue.h is not among the sources.  The
    timer queue is an ordered collection of timer records keyed by
    remaining time, smallest first, whose elements can be visited and
    changed in place.  It is represented by the list of its records in
    ascending order of remaining time: [top] is the first one. *)
Abbreviation t := (list CTimer.t) (only parsing).

Definition empty (c : t) : bool :=
  match c with [] => true | _ :: _ => false end.

Fixpoint push (v : CTimer.t) (c : t) : t :=
  match c with
  | [] => [v]
  | x :: c' =>
      if Qltb (CTimer.to_double v) (CTimer.to_double x) then v :: x :: c'
      else x :: push v c'
  end.

Definition top (c : t) : option CTimer.t := head c.

Definition pop (c : t) : t := tail c.

(** [erase(index)], the iterator being a position *)
Definition erase (index : nat) (c : t) : t := delete index c.

End CPriorityQueue.

(** ** IEventQueueBuffer: the backend buffer *)

Module IEventQueueBuffer.

Inductive Type_ : Set := kNone | kSystem | kUser.

(** Modelled from the spec: IEventQueueBuffer.h is not among the sources.
    The six operations of the backend buffer contract, over the state [B]
    of an implementation.  [getEvent_] receives the caller's event and
    returns the verdict, the event and the id it wrote. *)
Record ops (B : Type) : Type := Ops {
  isEmpty_ : B → bool;
  waitForEvent_ : double → B → B;
  getEvent_ : CEvent.t → B → (Type_ * CEvent.t * UInt32) * B;
  addEvent_ : UInt32 → B → bool * B;
  newTimer_ : double → bool → B → ptr * B;
  deleteTimer_ : ptr → B → B
}.
Arguments isEmpty_ {B} _ _.
Arguments waitForEvent_ {B} _ _ _.
Arguments getEvent_ {B} _ _ _.
Arguments addEvent_ {B} _ _ _.
Arguments newTimer_ {B} _ _ _ _.
Arguments deleteTimer_ {B} _ _ _.

(** A buffer object: the state of some implementation with its methods. *)
Record t : Type := Obj {
  state : Type;
  vtable : ops state;
  self : state
}.

Definition update (b : t) (s : state b) : t := Obj (state b) (vtable b) s.

Definition isEmpty (b : t) : bool := isEmpty_ (vtable b) (self b).

Definition waitForEvent (timeout : double) (b : t) : t :=
  update b (waitForEvent_ (vtable b) timeout (self b)).

Definition getEvent (event : CEvent.t) (b : t) : (Type_ * CEvent.t * UInt32) * t :=
  let r := getEvent_ (vtable b) event (self b) in (r.1, update b r.2).

Definition addEvent (dataID : UInt32) (b : t) : bool * t :=
  let r := addEvent_ (vtable b) dataID (self b) in (r.1, update b r.2).

Definition newTimer (duration : double) (oneShot : bool) (b : t) : ptr * t :=
  let r := newTimer_ (vtable b) duration oneShot (self b) in (r.1, update b r.2).

Definition deleteTimer (timer : ptr) (b : t) : t :=
  update b (deleteTimer_ (vtable b) timer (self b)).

End IEventQueueBuffer.

Arguments IEventQueueBuffer.isEmpty : simpl never.
Arguments IEventQueueBuffer.waitForEvent : simpl never.
Arguments IEventQueueBuffer.getEvent : simpl never.
Arguments IEventQueueBuffer.addEvent : simpl never.
Arguments IEventQueueBuffer.newTimer : simpl never.
Arguments IEventQueueBuffer.deleteTimer : simpl never.

(** ** CSimpleEventQueueBuffer: the default buffer *)

Module CSimpleEventQueueBuffer.

(** Modelled from the spec: CSimpleEventQueueBuffer.cpp is not among the
    sources.  The default backend is a simple in-memory FIFO of the
    submitted ids; [m_heap] numbers the timer objects it has allocated. *)
Record t : Type := mk {
  m_queue : list UInt32;
  m_heap : Z
}.

Definition isEmpty (b : t) : bool :=
  match m_queue b with [] => true | _ :: _ => false end.

Definition waitForEvent (timeout : double) (b : t) : t := b.

Definition getEvent (event : CEvent.t) (b : t)
    : (IEventQueueBuffer.Type_ * CEvent.t * UInt32) * t :=
  match m_queue b with
  | [] => ((IEventQueueBuffer.kNone, event, 0), b)
  | dataID :: rest => ((IEventQueueBuffer.kUser, event, dataID), mk rest (m_heap b))
  end.

Definition addEvent (dataID : UInt32) (b : t) : bool * t :=
  (true, mk (m_queue b ++ [dataID]) (m_heap b)).

Definition newTimer (duration : double) (oneShot : bool) (b : t) : ptr * t :=
  (m_heap b + 1, mk (m_queue b) (m_heap b + 1)).

Definition deleteTimer (timer : ptr) (b : t) : t := b.

Definition vtable : IEventQueueBuffer.ops t :=
  IEventQueueBuffer.Ops t isEmpty waitForEvent getEvent addEvent newTimer deleteTimer.

(** [new CSimpleEventQueueBuffer] *)
Definition new : IEventQueueBuffer.t := IEventQueueBuffer.Obj t vtable (mk [] 0).

End CSimpleEventQueueBuffer.

(** ** CEventQueue::CTypeTarget: the key of the handler table *)

Module CTypeTarget.

Record t : Type := mk {
  m_type : UInt32;
  m_target : ptr
}.

(** [operator<] *)
Definition lt (x tt : t) : bool :=
  (m_type x <? m_type tt) || ((m_type x =? m_type tt) && (m_target x <? m_target tt)).

End CTypeTarget.

(** ** CEventQueue *)

Module CEventQueue.

(** Calls that leave the queue object. *)
Inductive Effect : Type :=
| deleteData (event : CEvent.t)
| run (job : ptr) (event : CEvent.t)
| delete_job (job : ptr)
| delete_buffer (buffer : IEventQueueBuffer.t).

(** Modelled from the spec: CEventQueue.h is not among the sources.  The
    members are those the methods use: the backend buffer, the type
    registry ([m_nextType], [m_typeMap]), the event-data table [m_events]
    with the free-id stack [m_oldEventIDs], the clock [m_time], the set of
    known timers, the timer queue, the shared Timer-event payload and the
    handler table keyed by (type, target): two [CTypeTarget] keys are
    equivalent for [operator<] exactly when they have the same type and
    target, so the table is a map on pairs.  [addr_m_timerEvent] is the
    address [&m_timerEvent]. *)
Record t : Type := mk {
  m_buffer : IEventQueueBuffer.t;
  m_nextType : UInt32;
  m_typeMap : gmap Z string;
  m_events : gmap Z CEvent.t;
  m_oldEventIDs : list UInt32;
  m_time : CStopwatch.t;
  m_timers : gset Z;
  m_timerQueue : list CTimer.t;
  m_timerEvent : CTimerEvent.t;
  m_handlers : gmap (Z * Z) Z;
  addr_m_timerEvent : ptr
}.

Definition set_buffer (f : IEventQueueBuffer.t → IEventQueueBuffer.t) (q : t) : t :=
  mk (f (m_buffer q)) (m_nextType q) (m_typeMap q) (m_events q) (m_oldEventIDs q)
     (m_time q) (m_timers q) (m_timerQueue q) (m_timerEvent q) (m_handlers q)
     (addr_m_timerEvent q).

Definition set_nextType (f : UInt32 → UInt32) (q : t) : t :=
  mk (m_buffer q) (f (m_nextType q)) (m_typeMap q) (m_events q) (m_oldEventIDs q)
     (m_time q) (m_timers q) (m_timerQueue q) (m_timerEvent q) (m_handlers q)
     (addr_m_timerEvent q).

Definition set_typeMap (f : gmap Z string → gmap Z string) (q : t) : t :=
  mk (m_buffer q) (m_nextType q) (f (m_typeMap q)) (m_events q) (m_oldEventIDs q)
     (m_time q) (m_timers q) (m_timerQueue q) (m_timerEvent q) (m_handlers q)
     (addr_m_timerEvent q).

Definition set_events (f : gmap Z CEvent.t → gmap Z CEvent.t) (q : t) : t :=
  mk (m_buffer q) (m_nextType q) (m_typeMap q) (f (m_events q)) (m_oldEventIDs q)
     (m_time q) (m_timers q) (m_timerQueue q) (m_timerEvent q) (m_handlers q)
     (addr_m_timerEvent q).

Definition set_oldEventIDs (f : list UInt32 → list UInt32) (q : t) : t :=
  mk (m_buffer q) (m_nextType q) (m_typeMap q) (m_events q) (f (m_oldEventIDs q))
     (m_time q) (m_timers q) (m_timerQueue q) (m_timerEvent q) (m_handlers q)
     (addr_m_timerEvent q).

Definition set_time (f : CStopwatch.t → CStopwatch.t) (q : t) : t :=
  mk (m_buffer q) (m_nextType q) (m_typeMap q) (m_events q) (m_oldEventIDs q)
     (f (m_time q)) (m_timers q) (m_timerQueue q) (m_timerEvent q) (m_handlers q)
     (addr_m_timerEvent q).

Definition set_timers (f : gset Z → gset Z) (q : t) : t :=
  mk (m_buffer q) (m_nextType q) (m_typeMap q) (m_events q) (m_oldEventIDs q)
     (m_time q) (f (m_timers q)) (m_timerQueue q) (m_timerEvent q) (m_handlers q)
     (addr_m_timerEvent q).

Definition set_timerQueue (f : list CTimer.t → list CTimer.t) (q : t) : t :=
  mk (m_buffer q) (m_nextType q) (m_typeMap q) (m_events q) (m_oldEventIDs q)
     (m_time q) (m_timers q) (f (m_timerQueue q)) (m_timerEvent q) (m_handlers q)
     (addr_m_timerEvent q).

Definition set_timerEvent (f : CTimerEvent.t → CTimerEvent.t) (q : t) : t :=
  mk (m_buffer q) (m_nextType q) (m_typeMap q) (m_events q) (m_oldEventIDs q)
     (m_time q) (m_timers q) (m_timerQueue q) (f (m_timerEvent q)) (m_handlers q)
     (addr_m_timerEvent q).

Definition set_handlers (f : gmap (Z * Z) Z → gmap (Z * Z) Z) (q : t) : t :=
  mk (m_buffer q) (m_nextType q) (m_typeMap q) (m_events q) (m_oldEventIDs q)
     (m_time q) (m_timers q) (m_timerQueue q) (m_timerEvent q) (f (m_handlers q))
     (addr_m_timerEvent q).

(** *** The monad of the methods: queue state and trace of outside calls *)

Definition M (A : Type) : Type := t → A * t * list Effect.

Definition ret {A : Type} (a : A) : M A := λ q, (a, q, []).

Definition bind {A B : Type} (c : M A) (k : A → M B) : M B :=
  λ q, let '(a, q1, w1) := c q in
       let '(b, q2, w2) := k a q1 in
       (b, q2, w1 ++ w2).

Definition gets {A : Type} (f : t → A) : M A := λ q, (f q, q, []).

Definition modify (f : t → t) : M unit := λ q, (tt, f q, []).

Definition emit (e : Effect) : M unit := λ q, (tt, q, [e]).

(** A call of a method of [m_buffer] that changes the buffer. *)
Definition call_buffer {A : Type}
    (f : IEventQueueBuffer.t → A * IEventQueueBuffer.t) : M A :=
  λ q, let r := f (m_buffer q) in (r.1, set_buffer (λ _, r.2) q, []).

Fixpoint for_each {A : Type} (body : A → M unit) (l : list A) : M unit :=
  match l with
  | [] => ret tt
  | x :: l' => bind (body x) (λ _, for_each body l')
  end.

Definition result {A : Type} (r : A * t * list Effect) : A := r.1.1.
Definition state_of {A : Type} (r : A * t * list Effect) : t := r.1.2.
Definition trace {A : Type} (r : A * t * list Effect) : list Effect := r.2.

Notation "'let*' x ':=' c 'in' k" := (bind c (λ x, k))
  (at level 10, x name, c at level 100, k at level 200).
Notation "c ';;' k" := (bind c (λ _, k))
  (at level 100, k at level 200, right associativity).

(** *** Containers of the standard library *)

(** [std::map::insert]: an existing entry is kept. *)
Definition std_map_insert {V : Type} (k : Z) (v : V) (m : gmap Z V) : gmap Z V :=
  match m !! k with
  | Some _ => m
  | None => <[k := v]> m
  end.

(** Iteration over a [std::map] visits the entries by ascending key. *)
Definition key_le {V : Type} (a b : Z * V) : Prop := a.1 ≤ b.1.

#[global] Instance key_le_dec {V : Type} (a b : Z * V) : Decision (key_le a b).
Proof. unfold key_le. apply _. Defined.

Definition std_map_entries {V : Type} (m : gmap Z V) : list (Z * V) :=
  merge_sort key_le (map_to_list m).

(** *** Construction *)

(** [CEventQueue()]: the type counter starts at [kLast] and the buffer is a
    new simple buffer; [now] is the time at which the clock member starts
    and [addr] the address of the [m_timerEvent] member. *)
Definition new (now : double) (addr : ptr) : t :=
  mk CSimpleEventQueueBuffer.new CEvent.kLast ∅ ∅ [] (CStopwatch.start now)
     ∅ [] (CTimerEvent.mk NULL 0) ∅ addr.

(** *** Type registration *)

Definition registerType (name : string) : M UInt32 :=
  let* nextType := gets m_nextType in
  modify (set_typeMap (std_map_insert nextType name));;
  modify (set_nextType (λ n, wrap32 (n + 1)));;
  ret nextType.

(** The slot [type] is passed by reference: the result is the returned
    value with the slot's final content. *)
Definition registerTypeOnce (type : UInt32) (name : string) : M (UInt32 * UInt32) :=
  if type =? CEvent.kUnknown then
    let* nextType := gets m_nextType in
    modify (set_typeMap (std_map_insert nextType name));;
    modify (set_nextType (λ n, wrap32 (n + 1)));;
    ret (nextType, nextType)
  else ret (type, type).

Definition getTypeName (type : UInt32) : M string :=
  if type =? CEvent.kUnknown then ret "nil"%string
  else if type =? CEvent.kQuit then ret "quit"%string
  else if type =? CEvent.kSystem then ret "system"%string
  else if type =? CEvent.kTimer then ret "timer"%string
  else
    let* i := gets (λ q, m_typeMap q !! type) in
    match i with
    | None => ret "<unknown>"%string
    | Some name => ret name
    end.

(** *** Buffer swap *)

(** [buffer] is [None] for a null pointer. *)
Definition adoptBuffer (buffer : option IEventQueueBuffer.t) : M unit :=
  let* old := gets m_buffer in
  emit (delete_buffer old);;
  let* events := gets m_events in
  for_each (λ i : Z * CEvent.t, emit (deleteData i.2)) (std_map_entries events);;
  modify (set_events (λ _, ∅));;
  modify (set_oldEventIDs (λ _, []));;
  modify (set_buffer (λ b,
    match buffer with
    | Some buffer => buffer
    | None => CSimpleEventQueueBuffer.new
    end)).

(** *** The event-data table *)

Definition saveEvent (event : CEvent.t) : M UInt32 :=
  let* oldEventIDs := gets m_oldEventIDs in
  let* id :=
    match last oldEventIDs with
    | Some id => modify (set_oldEventIDs (@removelast Z));; ret id
    | None => gets (λ q, wrap32 (Z.of_nat (size (m_events q))))
    end in
  modify (set_events <[id := event]>);;
  ret id.

Definition removeEvent (eventID : UInt32) : M CEvent.t :=
  let* index := gets (λ q, m_events q !! eventID) in
  match index with
  | None => ret CEvent.default
  | Some event =>
      modify (set_events (delete eventID));;
      modify (set_oldEventIDs (λ ids, ids ++ [eventID]));;
      ret event
  end.

(** *** Handlers *)

(** [delete job]: deleting a null pointer does nothing. *)
Definition delete_ptr (job : ptr) : M unit :=
  if job =? NULL then ret tt else emit (delete_job job).

(** [m_handlers[key]] yields the stored pointer, a null one for a new key. *)
Definition doAdoptHandler (type : UInt32) (target handler : ptr) : M unit :=
  let* job := gets (λ q, default NULL (m_handlers q !! (type, target))) in
  delete_ptr job;;
  modify (set_handlers <[(type, target) := handler]>).

Definition doOrphanHandler (type : UInt32) (target : ptr) : M ptr :=
  let* index := gets (λ q, m_handlers q !! (type, target)) in
  match index with
  | Some handler => modify (set_handlers (delete (type, target)));; ret handler
  | None => ret NULL
  end.

(** [adoptHandler(target, handler)] *)
Definition adoptHandler (target handler : ptr) : M unit :=
  doAdoptHandler CEvent.kUnknown target handler.

(** [adoptHandler(type, target, handler)]; [type != kUnknown] is asserted. *)
Definition adoptHandler_type (type : UInt32) (target handler : ptr) : M unit :=
  doAdoptHandler type target handler.

(** [orphanHandler(target)] *)
Definition orphanHandler (target : ptr) : M ptr :=
  doOrphanHandler CEvent.kUnknown target.

(** [orphanHandler(type, target)]; [type != kUnknown] is asserted. *)
Definition orphanHandler_type (type : UInt32) (target : ptr) : M ptr :=
  doOrphanHandler type target.

(** [removeHandler(target)] *)
Definition removeHandler (target : ptr) : M unit :=
  let* job := orphanHandler target in delete_ptr job.

(** [removeHandler(type, target)] *)
Definition removeHandler_type (type : UInt32) (target : ptr) : M unit :=
  let* job := orphanHandler_type type target in delete_ptr job.

Definition getHandler (type : UInt32) (target : ptr) : M ptr :=
  let* index := gets (λ q, m_handlers q !! (type, target)) in
  match index with
  | Some job => ret job
  | None =>
      let* index := gets (λ q, m_handlers q !! (CEvent.kUnknown, target)) in
      match index with
      | Some job => ret job
      | None => ret NULL
      end
  end.

Definition dispatchEvent (event : CEvent.t) : M bool :=
  let target := CEvent.getTarget event in
  let* job := getHandler (CEvent.getType event) target in
  if negb (job =? NULL) then emit (run job event);; ret true
  else ret false.

(** *** Enqueue *)

Definition addEvent (event : CEvent.t) : M unit :=
  let type := CEvent.getType event in
  if (type =? CEvent.kUnknown) || (type =? CEvent.kSystem) || (type =? CEvent.kTimer)
  then ret tt
  else
    let* eventID := saveEvent event in
    let* ok := call_buffer (IEventQueueBuffer.addEvent eventID) in
    if negb ok then removeEvent eventID;; emit (deleteData event)
    else ret tt.

(** The interrupt handler adds a quit event. *)
Definition interrupt : M unit :=
  addEvent (CEvent.make CEvent.kQuit NULL NULL).

(** *** Timers *)

(** [duration > 0.0] is asserted. *)
Definition newTimer (now : double) (duration : double) (target : ptr) : M ptr :=
  let* timer := call_buffer (IEventQueueBuffer.newTimer duration false) in
  let target := if target =? NULL then timer else target in
  modify (set_timers (λ s, {[timer]} ∪ s));;
  let* clock := gets m_time in
  modify (set_timerQueue (CPriorityQueue.push
    (CTimer.make timer duration (duration + CStopwatch.getTime now clock)%Q target false)));;
  ret timer.

Definition newOneShotTimer (now : double) (duration : double) (target : ptr) : M ptr :=
  let* timer := call_buffer (IEventQueueBuffer.newTimer duration true) in
  let target := if target =? NULL then timer else target in
  modify (set_timers (λ s, {[timer]} ∪ s));;
  let* clock := gets m_time in
  modify (set_timerQueue (CPriorityQueue.push
    (CTimer.make timer duration (duration + CStopwatch.getTime now clock)%Q target true)));;
  ret timer.

(** The scan of [deleteTimer]: the position of the first record of [timer]. *)
Fixpoint find_timer (timer : ptr) (c : list CTimer.t) (index : nat) : option nat :=
  match c with
  | [] => None
  | x :: c' =>
      if CTimer.getTimer x =? timer then Some index
      else find_timer timer c' (S index)
  end.

Definition deleteTimer (timer : ptr) : M unit :=
  let* index := gets (λ q, find_timer timer (m_timerQueue q) 0%nat) in
  match index with
  | Some index => modify (set_timerQueue (CPriorityQueue.erase index))
  | None => ret tt
  end;;
  modify (set_timers (λ s, s ∖ {[timer]}));;
  modify (set_buffer (IEventQueueBuffer.deleteTimer timer)).

Definition hasTimerExpired (now : double) (event : CEvent.t) : M (bool * CEvent.t) :=
  let* empty := gets (λ q, CPriorityQueue.empty (m_timerQueue q)) in
  if empty then ret (false, event)
  else
    (* get time elapsed since last check *)
    let* time := gets (λ q, CStopwatch.getTime now (m_time q)) in
    modify (set_time (CStopwatch.reset now));;
    (* countdown elapsed time *)
    modify (set_timerQueue (map (CTimer.sub time)));;
    let* top := gets (λ q, CPriorityQueue.top (m_timerQueue q)) in
    match top with
    | None => ret (false, event) (* not reached: the queue is not empty *)
    | Some timer =>
        (* done if no timers are expired *)
        if Qltb 0 (CTimer.to_double timer) then ret (false, event)
        else
          (* remove timer from queue *)
          modify (set_timerQueue CPriorityQueue.pop);;
          (* prepare event and reset the timer's clock *)
          modify (set_timerEvent (CTimer.fillEvent timer));;
          let* data := gets addr_m_timerEvent in
          let event := CEvent.make CEvent.kTimer (CTimer.getTarget timer) data in
          let timer := CTimer.reset timer in
          (* reinsert timer into queue if it's not a one-shot *)
          (if negb (CTimer.isOneShot timer)
           then modify (set_timerQueue (CPriorityQueue.push timer))
           else ret tt);;
          ret (true, event)
    end.

Definition getNextTimerTimeout : M double :=
  let* top := gets (λ q, CPriorityQueue.top (m_timerQueue q)) in
  match top with
  | None => ret (-1)%Q
  | Some timer =>
      if Qle_bool (CTimer.to_double timer) 0 then ret 0%Q
      else ret (CTimer.to_double timer)
  end.

Definition isEmpty : M bool :=
  let* empty := gets (λ q, IEventQueueBuffer.isEmpty (m_buffer q)) in
  let* timerTimeout := getNextTimerTimeout in
  ret (empty && negb (Qeq_bool timerTimeout 0)).

(** *** Dequeue *)

(** One pass of [getEvent] from the label [retry]: either the method
    returns, or control comes back to the test of the [while] loop (after
    [waitForEvent], or by [goto retry]). *)
Inductive Outcome : Set := Return (b : bool) | Retry.

(** [timer] is the local stopwatch started on entry; [now_sweep] is the
    wall-clock time when [hasTimerExpired] reads the clock member and [now]
    the time when the local stopwatch is read. *)
Definition getEvent_pass (timeout : double) (timer : CStopwatch.t)
    (now_sweep now : double) (event : CEvent.t) : M (Outcome * CEvent.t) :=
  let* empty := gets (λ q, IEventQueueBuffer.isEmpty (m_buffer q)) in
  if empty then
    (* handle timers first *)
    let* expired := hasTimerExpired now_sweep event in
    let event := expired.2 in
    if expired.1 then ret (Return true, event)
    else
      (* get time remaining in timeout *)
      let timeLeft := (timeout - CStopwatch.getTime now timer)%Q in
      if Qle_bool 0 timeout && Qle_bool timeLeft 0 then ret (Return false, event)
      else
        let* timerTimeout := getNextTimerTimeout in
        let timeLeft :=
          if Qltb timeout 0 || (Qle_bool 0 timerTimeout && Qltb timerTimeout timeLeft)
          then timerTimeout else timeLeft in
        (* wait for an event *)
        modify (set_buffer (IEventQueueBuffer.waitForEvent timeLeft));;
        ret (Retry, event)
  else
    (* get the event *)
    let* got := call_buffer (IEventQueueBuffer.getEvent event) in
    let event := got.1.2 in
    let dataID := got.2 in
    match got.1.1 with
    | IEventQueueBuffer.kNone =>
        if Qltb timeout 0 || Qle_bool timeout (CStopwatch.getTime now timer)
        then ret (Retry, event)
        else ret (Return false, event)
    | IEventQueueBuffer.kSystem => ret (Return true, event)
    | IEventQueueBuffer.kUser =>
        let* event := removeEvent dataID in ret (Return true, event)
    end.

(** The passes of one call, one per pair of clock readings; [None] when the
    readings are used up and the call is still in its loop. *)
Fixpoint getEvent_loop (timeout : double) (timer : CStopwatch.t)
    (clock : list (double * double)) (event : CEvent.t) : M (option bool * CEvent.t) :=
  match clock with
  | [] => ret (None, event)
  | now :: clock' =>
      let* pass := getEvent_pass timeout timer now.1 now.2 event in
      match pass.1 with
      | Return b => ret (Some b, pass.2)
      | Retry => getEvent_loop timeout timer clock' pass.2
      end
  end.

(** [getEvent(event, timeout)] entered at wall-clock time [entry]. *)
Definition getEvent (entry : double) (clock : list (double * double))
    (event : CEvent.t) (timeout : double) : M (option bool * CEvent.t) :=
  getEvent_loop timeout (CStopwatch.start entry) clock event.

End CEventQueue.

(** ** A scripted backend

    An implementation of the buffer contract for the examples: [getEvent]
    hands out the verdicts of a script, and [addEvent] accepts ids only
    while there is room. *)

Module CScriptedBuffer.

Record t : Type := mk {
  m_script : list (IEventQueueBuffer.Type_ * CEvent.t * UInt32);
  m_room : nat;
  m_ids : list UInt32
}.

Definition isEmpty (b : t) : bool :=
  match m_script b with [] => true | _ :: _ => false end.

Definition waitForEvent (timeout : double) (b : t) : t := b.

Definition getEvent (event : CEvent.t) (b : t)
    : (IEventQueueBuffer.Type_ * CEvent.t * UInt32) * t :=
  match m_script b with
  | [] => ((IEventQueueBuffer.kNone, event, 0), b)
  | verdict :: rest => (verdict, mk rest (m_room b) (m_ids b))
  end.

Definition addEvent (dataID : UInt32) (b : t) : bool * t :=
  match m_room b with
  | O => (false, b)
  | S room => (true, mk (m_script b) room (m_ids b ++ [dataID]))
  end.

Definition newTimer (duration : double) (oneShot : bool) (b : t) : ptr * t :=
  (1, b).

Definition deleteTimer (timer : ptr) (b : t) : t := b.

Definition vtable : IEventQueueBuffer.ops t :=
  IEventQueueBuffer.Ops t isEmpty waitForEvent getEvent addEvent newTimer deleteTimer.

Definition make (script : list (IEventQueueBuffer.Type_ * CEvent.t * UInt32))
    (room : nat) : IEventQueueBuffer.t :=
  IEventQueueBuffer.Obj t vtable (mk script room []).

End CScriptedBuffer.

Import CEventQueue.

(** ** Vocabulary of the properties *)

(** The reserved types that must not be enqueued. *)
Definition is_reserved (type : UInt32) : bool :=
  (type =? CEvent.kUnknown) || (type =? CEvent.kSystem) || (type =? CEvent.kTimer).

(** The ids present in the event-data table, and those on the free stack. *)
Definition table_ids (q : CEventQueue.t) : gset Z := dom (m_events q).
Definition free_ids (q : CEventQueue.t) : gset Z := list_to_set (m_oldEventIDs q).

(** [A] is the prefix [{0, ..., n-1}] of the non-negative integers. *)
Definition is_prefix (A : gset Z) (n : nat) : Prop :=
  ∀ id : Z, id ∈ A ↔ 0 ≤ id < Z.of_nat n.

(** The public methods that leave the event-data table alone. *)
Inductive Call : Type :=
| call_registerType (name : string)
| call_registerTypeOnce (type : UInt32) (name : string)
| call_getTypeName (type : UInt32)
| call_dispatchEvent (event : CEvent.t)
| call_newTimer (now duration : double) (target : ptr)
| call_newOneShotTimer (now duration : double) (target : ptr)
| call_deleteTimer (timer : ptr)
| call_adoptHandler (target handler : ptr)
| call_adoptHandler_type (type : UInt32) (target handler : ptr)
| call_orphanHandler (target : ptr)
| call_orphanHandler_type (type : UInt32) (target : ptr)
| call_removeHandler (target : ptr)
| call_removeHandler_type (type : UInt32) (target : ptr)
| call_isEmpty.

Definition after_call (c : Call) (q : CEventQueue.t) : CEventQueue.t :=
  match c with
  | call_registerType name => state_of (registerType name q)
  | call_registerTypeOnce type name => state_of (registerTypeOnce type name q)
  | call_getTypeName type => state_of (getTypeName type q)
  | call_dispatchEvent event => state_of (dispatchEvent event q)
  | call_newTimer now duration target => state_of (newTimer now duration target q)
  | call_newOneShotTimer now duration target =>
      state_of (newOneShotTimer now duration target q)
  | call_deleteTimer timer => state_of (deleteTimer timer q)
  | call_adoptHandler target handler => state_of (adoptHandler target handler q)
  | call_adoptHandler_type type target handler =>
      state_of (adoptHandler_type type target handler q)
  | call_orphanHandler target => state_of (orphanHandler target q)
  | call_orphanHandler_type type target => state_of (orphanHandler_type type target q)
  | call_removeHandler target => state_of (removeHandler target q)
  | call_removeHandler_type type target => state_of (removeHandler_type type target q)
  | call_isEmpty => state_of (isEmpty q)
  end.

(** [reachable q A]: the queue [q] is reached from a new queue by the
    public methods and by the internal [saveEvent] and [removeEvent], and
    [A] is the set of the ids that [saveEvent] has handed out since the
    event-data table was last emptied (at construction or by
    [adoptBuffer], which invalidates every id). *)
Inductive reachable : CEventQueue.t → gset Z → Prop :=
| reach_new now addr :
    reachable (CEventQueue.new now addr) ∅
| reach_saveEvent q A event :
    reachable q A →
    reachable (state_of (saveEvent event q)) (A ∪ {[result (saveEvent event q)]})
| reach_removeEvent q A eventID :
    reachable q A →
    reachable (state_of (removeEvent eventID q)) A
| reach_addEvent q A event :
    reachable q A →
    reachable (state_of (addEvent event q))
      (if is_reserved (CEvent.getType event) then A
       else A ∪ {[result (saveEvent event q)]})
| reach_getEvent_pass q A timeout timer now_sweep now event :
    reachable q A →
    reachable (state_of (getEvent_pass timeout timer now_sweep now event q)) A
| reach_adoptBuffer q A buffer :
    reachable q A →
    reachable (state_of (adoptBuffer buffer q)) ∅
| reach_call q A c :
    reachable q A →
    reachable (after_call c q) A.

(** The invariant of the event-data table that the methods maintain; the
    ids on the free stack are moreover pairwise distinct. *)
Definition table_inv (q : CEventQueue.t) (A : gset Z) : Prop :=
  NoDup (m_oldEventIDs q) ∧
  table_ids q ## free_ids q ∧
  table_ids q ∪ free_ids q = A ∧
  is_prefix A (size A).

(** The events on which the payload-deletion hook was called, in order. *)
Definition deleted_events (w : list Effect) : list CEvent.t :=
  omap (λ e, match e with deleteData event => Some event | _ => None end) w.

(** The type registry while its counter has not wrapped around: the counter
    lies between [kLast] and [2^32], above every registered type. *)
Definition registry_ok (q : CEventQueue.t) : Prop :=
  CEvent.kLast ≤ m_nextType q < 2 ^ 32 ∧
  ∀ type, is_Some (m_typeMap q !! type) → CEvent.kLast ≤ type < m_nextType q.

(** Ascending order of remaining time, the order of the timer queue. *)
Definition time_le (x y : CTimer.t) : Prop :=
  (CTimer.m_time x <= CTimer.m_time y)%Q.

Definition queue_sorted (c : list CTimer.t) : Prop := StronglySorted time_le c.

(** The backend timers that have a record in the timer queue. *)
Definition queued_timers (q : CEventQueue.t) : list ptr :=
  map CTimer.getTimer (m_timerQueue q).

(** Successive expiry sweeps, one at each of the given clock readings. *)
Fixpoint sweeps (nows : list double) (event : CEvent.t) (q : CEventQueue.t)
    : CEventQueue.t :=
  match nows with
  | [] => q
  | now :: nows' => sweeps nows' event (state_of (hasTimerExpired now event q))
  end.

(** The count that [fillEvent] converts: the periods that have gone by. *)
Definition periods (x : CTimer.t) : double :=
  ((CTimer.m_timeout x - CTimer.m_time x) / CTimer.m_timeout x)%Q.

(** Successive registrations, as a subsystem does when it starts: the
    types returned, in order. *)
Fixpoint registerTypes (names : list string) : M (list UInt32) :=
  match names with
  | [] => ret []
  | name :: names' =>
      let* type := registerType name in
      let* types := registerTypes names' in
      ret (type :: types)
  end.



(** * Properties *)

(** ** The methods in closed form *)

Lemma saveEvent_unfold event q :
  saveEvent event q =
  match last (m_oldEventIDs q) with
  | Some id =>
      (id, set_events <[id := event]> (set_oldEventIDs (@removelast Z) q), [])
  | None =>
      let id := wrap32 (Z.of_nat (size (m_events q))) in
      (id, set_events <[id := event]> q, [])
  end.
Proof.
  unfold saveEvent, bind, gets, modify, ret. simpl.
  destruct (last (m_oldEventIDs q)); reflexivity.
Qed.

Lemma removeEvent_unfold eventID q :
  removeEvent eventID q =
  match m_events q !! eventID with
  | None => (CEvent.default, q, [])
  | Some event =>
      (event,
       set_oldEventIDs (λ ids, ids ++ [eventID]) (set_events (delete eventID) q),
       [])
  end.
Proof.
  unfold removeEvent, bind, gets, modify, ret. simpl.
  destruct (m_events q !! eventID); reflexivity.
Qed.

(** ** The id bijection *)

Lemma table_inv_new now addr : table_inv (CEventQueue.new now addr) ∅.
Proof.
  unfold table_inv, table_ids, free_ids, is_prefix.
  cbn [m_events m_oldEventIDs CEventQueue.new].
  split; [constructor|]. split; [set_solver|]. split; [set_solver|].
  intros id. rewrite size_empty. split; [set_solver|lia].
Qed.

Lemma table_inv_saveEvent q A event :
  table_inv q A →
  table_inv (state_of (saveEvent event q)) (A ∪ {[result (saveEvent event q)]}).
Proof.
  intros (Hnd & Hdisj & Hunion & Hpre).
  rewrite saveEvent_unfold.
  unfold table_inv, table_ids, free_ids in *.
  destruct (last (m_oldEventIDs q)) as [id|] eqn:Hlast.
  - apply last_Some in Hlast as [l Hl].
    unfold state_of, result. simpl. rewrite Hl in *. rewrite removelast_last.
    apply NoDup_app in Hnd as (Hndl & Hnotin & _).
    rewrite list_to_set_app_L in *. simpl in *.
    rewrite dom_insert_L.
    assert (id ∉ l) by (intros Hin; apply (Hnotin id Hin); set_solver).
    assert (id ∈ A) by set_solver.
    replace (A ∪ {[id]}) with A by set_solver.
    split; [done|]. split; [set_solver|]. split; [set_solver|done].
  - apply last_None in Hlast.
    unfold state_of, result. simpl. rewrite Hlast in *. simpl in *.
    rewrite dom_insert_L.
    assert (HA : A = dom (m_events q)) by set_solver.
    assert (Hsz : size A = size (m_events q)) by (rewrite HA; apply size_dom).
    set (n := size (m_events q)) in *.
    destruct (decide (Z.of_nat n < 2 ^ 32)) as [Hlt|Hge].
    + assert (Hid : wrap32 (Z.of_nat n) = Z.of_nat n)
        by (unfold wrap32; apply Z.mod_small; lia).
      rewrite Hid.
      assert (Hfresh : Z.of_nat n ∉ A) by (rewrite (Hpre (Z.of_nat n)), Hsz; lia).
      split; [constructor|]. split; [set_solver|]. split; [set_solver|].
      intros id. rewrite size_union by set_solver. rewrite size_singleton, Hsz.
      rewrite elem_of_union, elem_of_singleton, (Hpre id), Hsz. lia.
    + assert (Hin : wrap32 (Z.of_nat n) ∈ A).
      { rewrite (Hpre _), Hsz. unfold wrap32.
        pose proof (Z.mod_pos_bound (Z.of_nat n) (2 ^ 32)). lia. }
      replace (A ∪ {[wrap32 (Z.of_nat n)]}) with A by set_solver.
      split; [constructor|]. split; [set_solver|]. split; [set_solver|done].
Qed.

Lemma table_inv_removeEvent q A eventID :
  table_inv q A → table_inv (state_of (removeEvent eventID q)) A.
Proof.
  intros (Hnd & Hdisj & Hunion & Hpre).
  rewrite removeEvent_unfold.
  destruct (m_events q !! eventID) as [event|] eqn:Hlook.
  - unfold table_inv, table_ids, free_ids, state_of in *. simpl.
    assert (Hin : eventID ∈ dom (m_events q)) by (apply elem_of_dom; eauto).
    assert (Hnotin : eventID ∉ m_oldEventIDs q) by set_solver.
    rewrite dom_delete_L, list_to_set_app_L. simpl.
    split.
    { apply NoDup_app. split; [done|]. split; [|apply NoDup_singleton].
      intros x Hx Hx'. apply list_elem_of_singleton in Hx'. by subst. }
    split; [set_solver|]. split; [|done].
    rewrite <- Hunion. apply set_eq. intros x.
    destruct (decide (x = eventID)); set_solver.
  - done.
Qed.

(** Unfolding of the monad and of the methods that are straight-line code. *)
Ltac run_monad :=
  unfold bind, gets, modify, ret, emit, call_buffer, delete_ptr,
    state_of, result, trace in *.

Ltac run_method :=
  unfold registerType, registerTypeOnce, getTypeName, dispatchEvent, getHandler,
    newTimer, newOneShotTimer, deleteTimer, adoptHandler, adoptHandler_type,
    removeHandler, removeHandler_type, orphanHandler, orphanHandler_type,
    doAdoptHandler, doOrphanHandler, isEmpty, getNextTimerTimeout,
    hasTimerExpired in *;
  run_monad.

Ltac run_cases :=
  simpl; repeat (first [progress run_monad | case_match]; simplify_eq/=).

Lemma bind_run {A B : Type} (c : M A) (k : A → M B) q :
  bind c k q =
  (result (k (result (c q)) (state_of (c q))),
   state_of (k (result (c q)) (state_of (c q))),
   trace (c q) ++ trace (k (result (c q)) (state_of (c q)))).
Proof.
  unfold bind, result, state_of, trace.
  destruct (c q) as [[a q1] w1]. simpl.
  destruct (k a q1) as [[b q2] w2]. reflexivity.
Qed.

Lemma table_inv_frame q q' A :
  m_events q' = m_events q → m_oldEventIDs q' = m_oldEventIDs q →
  table_inv q A → table_inv q' A.
Proof.
  unfold table_inv, table_ids, free_ids. intros -> ->. done.
Qed.

Lemma after_call_table c q :
  m_events (after_call c q) = m_events q ∧
  m_oldEventIDs (after_call c q) = m_oldEventIDs q.
Proof.
  destruct c; unfold after_call; run_method; run_cases; auto.
Qed.

Lemma hasTimerExpired_table now event q :
  m_events (state_of (hasTimerExpired now event q)) = m_events q ∧
  m_oldEventIDs (state_of (hasTimerExpired now event q)) = m_oldEventIDs q.
Proof.
  run_method; run_cases; auto.
Qed.

Lemma for_each_emit {A : Type} (f : A → Effect) (l : list A) q :
  for_each (λ x, emit (f x)) l q = (tt, q, map f l).
Proof.
  induction l as [|x l IH]; simpl; [reflexivity|].
  unfold bind, emit at 1. rewrite IH. reflexivity.
Qed.

Lemma adoptBuffer_unfold buffer q :
  adoptBuffer buffer q =
  (tt,
   set_buffer (λ _, match buffer with
                    | Some buffer => buffer
                    | None => CSimpleEventQueueBuffer.new
                    end)
     (set_oldEventIDs (λ _, []) (set_events (λ _, ∅) q)),
   delete_buffer (m_buffer q)
     :: map (λ i, deleteData i.2) (std_map_entries (m_events q))).
Proof.
  unfold adoptBuffer. unfold bind at 1 2 3. unfold gets, emit at 1. simpl.
  unfold bind at 1. rewrite for_each_emit.
  unfold bind, modify. simpl. rewrite app_nil_r. reflexivity.
Qed.

Lemma table_inv_adoptBuffer buffer q : table_inv (state_of (adoptBuffer buffer q)) ∅.
Proof.
  rewrite adoptBuffer_unfold.
  unfold table_inv, table_ids, free_ids, is_prefix, state_of.
  cbn [fst snd m_events m_oldEventIDs set_buffer set_oldEventIDs set_events].
  split; [constructor|]. split; [set_solver|]. split; [set_solver|].
  intros id. rewrite size_empty. split; [set_solver|lia].
Qed.

Lemma saveEvent_trace event q : trace (saveEvent event q) = [].
Proof. rewrite saveEvent_unfold. by destruct (last _). Qed.

Lemma removeEvent_trace eventID q : trace (removeEvent eventID q) = [].
Proof. rewrite removeEvent_unfold. by destruct (_ !! _). Qed.

Lemma addEvent_unfold event q :
  addEvent event q =
  if is_reserved (CEvent.getType event) then (tt, q, [])
  else
    let q1 := state_of (saveEvent event q) in
    let eventID := result (saveEvent event q) in
    let sent := IEventQueueBuffer.addEvent eventID (m_buffer q1) in
    let q2 := set_buffer (λ _, sent.2) q1 in
    if sent.1 then (tt, q2, [])
    else (tt, state_of (removeEvent eventID q2), [deleteData event]).
Proof.
  unfold addEvent, is_reserved.
  destruct (_ || _); [reflexivity|].
  pose proof (saveEvent_trace event q) as Hs.
  unfold bind at 1.
  destruct (saveEvent event q) as [[eventID q1] w1].
  unfold trace, result, state_of in *. cbn [fst snd] in *. subst w1.
  unfold bind at 1. unfold call_buffer. cbn [fst snd].
  destruct (IEventQueueBuffer.addEvent eventID (m_buffer q1)) as [[|] b'];
    cbn [fst snd negb]; [reflexivity|].
  set (q2 := set_buffer _ q1).
  pose proof (removeEvent_trace eventID q2) as Hr.
  unfold bind, emit.
  destruct (removeEvent eventID q2) as [[e q3] w3].
  unfold trace in Hr. cbn [fst snd] in *. subst w3. reflexivity.
Qed.

Lemma table_inv_addEvent q A event :
  table_inv q A →
  table_inv (state_of (addEvent event q))
    (if is_reserved (CEvent.getType event) then A
     else A ∪ {[result (saveEvent event q)]}).
Proof.
  intros Hinv. rewrite addEvent_unfold.
  destruct (is_reserved _); [done|]. cbv zeta.
  apply (table_inv_saveEvent _ _ event) in Hinv.
  set (q1 := state_of (saveEvent event q)) in *.
  set (A1 := A ∪ _) in *.
  destruct (IEventQueueBuffer.addEvent _ _) as [[|] b']; cbn [fst snd].
  - by eapply table_inv_frame; [..|exact Hinv].
  - unfold state_of at 1. cbn [fst snd]. apply table_inv_removeEvent.
    by eapply table_inv_frame; [..|exact Hinv].
Qed.

Lemma table_inv_getEvent_pass q A timeout timer now_sweep now event :
  table_inv q A →
  table_inv (state_of (getEvent_pass timeout timer now_sweep now event q)) A.
Proof.
  intros Hinv. unfold getEvent_pass.
  unfold bind at 1. unfold gets at 1.
  destruct (IEventQueueBuffer.isEmpty (m_buffer q)).
  - unfold bind at 1.
    destruct (hasTimerExpired_table now_sweep event q) as [He Hf].
    destruct (hasTimerExpired now_sweep event q) as [[[expired event'] q1] w1].
    unfold state_of in He, Hf. cbn [fst snd] in *.
    assert (table_inv q1 A) by by eapply table_inv_frame; [..|exact Hinv].
    destruct expired; [done|].
    destruct (_ && _); [done|].
    run_method. run_cases; by eapply table_inv_frame; [..|exact Hinv].
  - unfold bind at 1. unfold call_buffer at 1.
    destruct (IEventQueueBuffer.getEvent event (m_buffer q))
      as [[[verdict event'] dataID] b'].
    cbn [fst snd].
    set (q1 := set_buffer _ q).
    assert (table_inv q1 A) by by eapply table_inv_frame; [..|exact Hinv].
    destruct verdict.
    + by destruct (_ || _).
    + done.
    + pose proof (table_inv_removeEvent q1 A dataID) as Hrem.
      unfold bind, ret.
      destruct (removeEvent dataID q1) as [[e q2] w2]. unfold state_of in *.
      cbn [fst snd] in *. auto.
Qed.

Lemma table_inv_after_call c q A : table_inv q A → table_inv (after_call c q) A.
Proof.
  destruct (after_call_table c q) as [He Hf]. by apply table_inv_frame.
Qed.

Lemma reachable_table_inv q A : reachable q A → table_inv q A.
Proof.
  induction 1;
    eauto using table_inv_new, table_inv_saveEvent, table_inv_removeEvent,
      table_inv_addEvent, table_inv_getEvent_pass, table_inv_adoptBuffer,
      table_inv_after_call.
Qed.

(** A whole call of [getEvent] is a sequence of passes, so it stays within
    the reachable states and hands out no id. *)
Lemma reachable_getEvent_loop timeout timer clock event q A :
  reachable q A →
  reachable (state_of (getEvent_loop timeout timer clock event q)) A.
Proof.
  revert event q. induction clock as [|now clock IH]; intros event q Hq.
  - exact Hq.
  - cbn [getEvent_loop]. unfold bind.
    pose proof (reach_getEvent_pass q A timeout timer now.1 now.2 event Hq) as H1.
    destruct (getEvent_pass timeout timer now.1 now.2 event q)
      as [[[outcome event'] q1] w1].
    unfold state_of in H1. cbn [fst snd] in *.
    destruct outcome as [b|].
    + unfold ret, state_of. cbn [fst snd]. exact H1.
    + specialize (IH event' q1 H1). unfold state_of in *.
      destruct (getEvent_loop timeout timer clock event' q1) as [[r q2] w2].
      exact IH.
Qed.



(** ** Enqueue *)

Lemma is_reserved_true type :
  is_reserved type = true ↔
  type = CEvent.kUnknown ∨ type = CEvent.kSystem ∨ type = CEvent.kTimer.
Proof.
  unfold is_reserved. rewrite !orb_true_iff, !Z.eqb_eq. tauto.
Qed.

Lemma is_reserved_false type :
  is_reserved type = false ↔
  type ≠ CEvent.kUnknown ∧ type ≠ CEvent.kSystem ∧ type ≠ CEvent.kTimer.
Proof.
  unfold is_reserved. rewrite !orb_false_iff, !Z.eqb_neq. tauto.
Qed.

Lemma saveEvent_stored event q :
  m_events (state_of (saveEvent event q)) !! result (saveEvent event q) = Some event.
Proof.
  rewrite saveEvent_unfold.
  destruct (last (m_oldEventIDs q)); unfold state_of, result;
    cbn [fst snd m_events set_events set_oldEventIDs]; apply lookup_insert_eq.
Qed.

Lemma saveEvent_buffer event q :
  m_buffer (state_of (saveEvent event q)) = m_buffer q.
Proof.
  rewrite saveEvent_unfold. by destruct (last (m_oldEventIDs q)).
Qed.

Lemma removeEvent_buffer eventID q :
  m_buffer (state_of (removeEvent eventID q)) = m_buffer q.
Proof.
  rewrite removeEvent_unfold. by destruct (m_events q !! eventID).
Qed.

(** C2 (reserved types are not enqueuable).  For an event whose type is
    Unknown, System or Timer, addEvent returns with the queue unchanged
    (event-data table, free-id stack and buffer included) and without
    calling the payload-deletion hook.  For an event of any other type,
    Quit included, addEvent saves the event under an id in the table and
    submits that id to the buffer; when the buffer accepts it, the queue is
    left with the event saved and nothing is deleted. *)
Theorem addEvent_reserved_or_saved event q :
  let type := CEvent.getType event in
  (type = CEvent.kUnknown ∨ type = CEvent.kSystem ∨ type = CEvent.kTimer →
   addEvent event q = (tt, q, [])) ∧
  (type ≠ CEvent.kUnknown → type ≠ CEvent.kSystem → type ≠ CEvent.kTimer →
   ∃ eventID q1,
     saveEvent event q = (eventID, q1, []) ∧
     m_events q1 !! eventID = Some event ∧
     let sent := IEventQueueBuffer.addEvent eventID (m_buffer q) in
     m_buffer (state_of (addEvent event q)) = sent.2 ∧
     (sent.1 = true →
      addEvent event q = (tt, set_buffer (λ _, sent.2) q1, []))) ∧
  is_reserved CEvent.kQuit = false.
Proof.
  intros type. split; [|split; [|reflexivity]].
  - intros Hres. apply is_reserved_true in Hres.
    rewrite addEvent_unfold. fold type. by rewrite Hres.
  - intros H1 H2 H3.
    assert (Hres : is_reserved type = false) by by apply is_reserved_false.
    exists (result (saveEvent event q)), (state_of (saveEvent event q)).
    pose proof (saveEvent_trace event q) as Htr.
    pose proof (saveEvent_stored event q) as Hst.
    pose proof (saveEvent_buffer event q) as Hbuf.
    rewrite addEvent_unfold. fold type. rewrite Hres. cbv zeta.
    rewrite Hbuf.
    destruct (saveEvent event q) as [[eventID q1] w1].
    unfold trace, result, state_of in *. cbn [fst snd] in *. subst w1.
    split; [reflexivity|]. split; [exact Hst|].
    destruct (IEventQueueBuffer.addEvent eventID (m_buffer q)) as [[|] b'];
      cbn [fst snd].
    + split; [reflexivity|]. reflexivity.
    + split; [|discriminate].
      pose proof (removeEvent_buffer eventID (set_buffer (λ _, b') q1)) as Hr.
      unfold state_of in Hr. exact Hr.
Qed.

Lemma addEvent_reserved_or_saved_witness :
  let q := CEventQueue.new 0 100 in
  let system := CEvent.make CEvent.kSystem 7 42 in
  let quit := CEvent.make CEvent.kQuit 0 0 in
  addEvent system q = (tt, q, []) ∧
  ∃ eventID q1,
    saveEvent quit q = (eventID, q1, []) ∧
    m_events q1 !! eventID = Some quit ∧
    let sent := IEventQueueBuffer.addEvent eventID (m_buffer q) in
    m_buffer (state_of (addEvent quit q)) = sent.2 ∧
    (sent.1 = true → addEvent quit q = (tt, set_buffer (λ _, sent.2) q1, [])).
Proof.
  intros q system quit. split.
  - apply (proj1 (addEvent_reserved_or_saved system q)).
    right. left. reflexivity.
  - apply (proj1 (proj2 (addEvent_reserved_or_saved quit q))); discriminate.
Defined.

(** ** Handler keys *)

(** Keys that [operator<] does not separate are equal. *)
Lemma CTypeTarget_equiv (x y : CTypeTarget.t) :
  CTypeTarget.lt x y = false ∧ CTypeTarget.lt y x = false ↔ x = y.
Proof.
  destruct x as [t1 p1], y as [t2 p2]. unfold CTypeTarget.lt.
  cbn [CTypeTarget.m_type CTypeTarget.m_target].
  rewrite !orb_false_iff, !andb_false_iff, !Z.ltb_ge, !Z.eqb_neq.
  split.
  - intros [[H1 H2] [H3 H4]]. assert (t1 = t2) by lia.
    assert (p1 = p2) by lia. by subst.
  - intros [= -> ->]. lia.
Qed.

(** ** Dispatch *)

Lemma getHandler_unfold type target q :
  getHandler type target q =
  (match m_handlers q !! (type, target) with
   | Some job => job
   | None => default NULL (m_handlers q !! (CEvent.kUnknown, target))
   end, q, []).
Proof.
  unfold getHandler, bind, gets, ret. cbn [fst snd].
  destruct (m_handlers q !! (type, target)); [reflexivity|].
  by destruct (m_handlers q !! (CEvent.kUnknown, target)).
Qed.

Lemma dispatchEvent_unfold event q :
  dispatchEvent event q =
  let job := result (getHandler (CEvent.getType event) (CEvent.getTarget event) q) in
  if job =? NULL then (false, q, []) else (true, q, [run job event]).
Proof.
  unfold dispatchEvent. unfold bind at 1. rewrite getHandler_unfold.
  unfold result. cbn [fst snd].
  by destruct (_ =? NULL).
Qed.

(** Installing and removing a handler is an insertion into and a deletion
    from the handler table, under the given key. *)
Lemma doAdoptHandler_installs type target handler q :
  m_handlers (state_of (doAdoptHandler type target handler q))
  = <[(type, target) := handler]> (m_handlers q).
Proof.
  unfold doAdoptHandler, delete_ptr, bind, gets, modify, state_of.
  cbn [fst snd]. by destruct (_ =? NULL).
Qed.

Lemma doOrphanHandler_removes type target q :
  m_handlers (state_of (doOrphanHandler type target q))
  = delete (type, target) (m_handlers q).
Proof.
  unfold doOrphanHandler, bind, gets, modify, ret, state_of. cbn [fst snd].
  destruct (m_handlers q !! (type, target)) eqn:Hlook; cbn [fst snd m_handlers set_handlers];
    [reflexivity|]. symmetry. by apply delete_id.
Qed.



(** A null pointer stored under the exact key is not a handler: the lookup
    stops at that entry, and dispatchEvent returns false. *)
Lemma dispatchEvent_null_entry event q :
  m_handlers q !! (CEvent.getType event, CEvent.getTarget event) = Some NULL →
  dispatchEvent event q = (false, q, []).
Proof.
  intros Hnull. rewrite dispatchEvent_unfold, getHandler_unfold. unfold result.
  cbn [fst snd]. cbv zeta. rewrite Hnull. reflexivity.
Qed.

(** ** Buffer swap *)

Lemma deleted_events_deleteData {A : Type} (f : A → CEvent.t) (l : list A) :
  deleted_events (map (λ x, deleteData (f x)) l) = map f l.
Proof.
  induction l as [|x l IH]; [reflexivity|].
  unfold deleted_events in *. cbn [map omap list_omap]. by rewrite IH.
Qed.

Lemma std_map_entries_Permutation {V : Type} (m : gmap Z V) :
  std_map_entries m ≡ₚ map_to_list m.
Proof. apply merge_sort_Permutation. Qed.

(** C6 (buffer swap flushes).  From every state, adoptBuffer calls the
    payload-deletion hook exactly once per entry stored in the event-data
    table (the events deleted are, with multiplicity, the stored ones),
    leaves the table and the free-id stack empty, and installs the given
    buffer as the active one, or a new simple buffer when the argument is
    null. *)
Theorem adoptBuffer_flushes buffer q :
  let r := adoptBuffer buffer q in
  deleted_events (trace r) ≡ₚ (map_to_list (m_events q)).*2 ∧
  length (deleted_events (trace r)) = size (m_events q) ∧
  m_events (state_of r) = ∅ ∧
  m_oldEventIDs (state_of r) = [] ∧
  m_buffer (state_of r) =
    match buffer with
    | Some buffer => buffer
    | None => CSimpleEventQueueBuffer.new
    end.
Proof.
  intros r. subst r. rewrite adoptBuffer_unfold.
  unfold trace, state_of. cbn [fst snd].
  assert (Hdel : deleted_events
            (delete_buffer (m_buffer q)
               :: map (λ i : Z * CEvent.t, deleteData i.2)
                    (std_map_entries (m_events q)))
          = (std_map_entries (m_events q)).*2).
  { change (deleted_events (delete_buffer ?b :: ?w)) with (deleted_events w).
    apply (deleted_events_deleteData snd). }
  rewrite Hdel.
  split; [by rewrite std_map_entries_Permutation|].
  split.
  { rewrite length_fmap, std_map_entries_Permutation. apply length_map_to_list. }
  done.
Qed.

(** Scenario S6: three saved events, then a buffer swap. *)
Example adoptBuffer_three_events :
  let e1 := CEvent.make 5 7 41 in
  let e2 := CEvent.make 5 7 42 in
  let e3 := CEvent.make 6 8 43 in
  let q := state_of (addEvent e3 (state_of (addEvent e2
             (state_of (addEvent e1 (CEventQueue.new 0 100)))))) in
  let r := adoptBuffer None q in
  deleted_events (trace r) = [e1; e2; e3] ∧
  m_events (state_of r) = ∅ ∧ m_oldEventIDs (state_of r) = [].
Proof. vm_compute. done. Qed.

(** ** Type registration *)

Lemma registerTypeOnce_unfold type name q :
  registerTypeOnce type name q =
  if type =? CEvent.kUnknown then
    ((m_nextType q, m_nextType q),
     set_nextType (λ n, wrap32 (n + 1))
       (set_typeMap (std_map_insert (m_nextType q) name) q),
     [])
  else ((type, type), q, []).
Proof.
  unfold registerTypeOnce. by destruct (type =? CEvent.kUnknown).
Qed.

Lemma registerType_unfold name q :
  registerType name q =
  (m_nextType q,
   set_nextType (λ n, wrap32 (n + 1))
     (set_typeMap (std_map_insert (m_nextType q) name) q),
   []).
Proof. reflexivity. Qed.

Lemma registry_ok_new now addr : registry_ok (CEventQueue.new now addr).
Proof.
  split; [done|]. intros type [name Hname].
  cbn [m_typeMap CEventQueue.new] in Hname. by rewrite lookup_empty in Hname.
Qed.

(** Registration keeps the registry well formed until the counter reaches
    its last value. *)
Lemma registry_ok_registerType name q :
  registry_ok q → m_nextType q + 1 < 2 ^ 32 →
  registry_ok (state_of (registerType name q)).
Proof.
  intros [Hnext Hkeys] Hroom. rewrite registerType_unfold.
  unfold registry_ok, state_of.
  cbn [fst snd m_nextType m_typeMap set_nextType set_typeMap].
  assert (Hw : wrap32 (m_nextType q + 1) = m_nextType q + 1)
    by (unfold wrap32; apply Z.mod_small; unfold CEvent.kLast in *; lia).
  rewrite Hw. split; [lia|].
  intros type. unfold std_map_insert.
  destruct (m_typeMap q !! m_nextType q) eqn:Hlook.
  - intros Hsome. specialize (Hkeys type Hsome). lia.
  - destruct (decide (type = m_nextType q)) as [->|Hne].
    + intros _. lia.
    + rewrite lookup_insert_ne by done. intros Hsome.
      specialize (Hkeys type Hsome). lia.
Qed.

Lemma registry_ok_registerTypeOnce type name q :
  registry_ok q → m_nextType q + 1 < 2 ^ 32 →
  registry_ok (state_of (registerTypeOnce type name q)).
Proof.
  intros Hok Hroom. rewrite registerTypeOnce_unfold.
  destruct (type =? CEvent.kUnknown); [|exact Hok].
  exact (registry_ok_registerType name q Hok Hroom).
Qed.



(** ** Refused submissions *)

(** C5 as stated fails: when the free-id stack is empty, the id of a
    refused event is a new one, and after the call it sits on the free-id
    stack, which was empty before. *)
Lemma addEvent_refused_grows_free_stack :
  let q := state_of (adoptBuffer (Some (CScriptedBuffer.make [] 0))
                       (CEventQueue.new 0 100)) in
  let event := CEvent.make 5 7 42 in
  is_reserved (CEvent.getType event) = false ∧
  (IEventQueueBuffer.addEvent (result (saveEvent event q)) (m_buffer q)).1 = false ∧
  m_oldEventIDs q = [] ∧
  m_oldEventIDs (state_of (addEvent event q)) = [0] ∧
  ¬ (m_events (state_of (addEvent event q)) = m_events q ∧
     m_oldEventIDs (state_of (addEvent event q)) = m_oldEventIDs q).
Proof.
  cbv zeta. split; [reflexivity|]. split; [reflexivity|].
  split; [reflexivity|]. split; [reflexivity|].
  intros [_ Hfree]. vm_compute in Hfree. discriminate Hfree.
Qed.

(** C5, amended.  In a reachable state that holds fewer than [2^32]
    events, when the buffer refuses the id of an event of a non-reserved
    type: the id is removed from the event-data table and pushed onto the
    free-id stack, the payload-deletion hook is called on the event (and on
    nothing else), and the table ends exactly as it was before the call.
    The free-id stack ends as it was before when the id was taken from it;
    when it was empty, it ends holding the new id. *)
Theorem addEvent_refused event q A :
  reachable q A →
  Z.of_nat (size (m_events q)) < 2 ^ 32 →
  is_reserved (CEvent.getType event) = false →
  let eventID := result (saveEvent event q) in
  (IEventQueueBuffer.addEvent eventID (m_buffer q)).1 = false →
  let q' := state_of (addEvent event q) in
  m_events q' !! eventID = None ∧
  last (m_oldEventIDs q') = Some eventID ∧
  trace (addEvent event q) = [deleteData event] ∧
  m_events q' = m_events q ∧
  m_oldEventIDs q' =
    match last (m_oldEventIDs q) with
    | Some _ => m_oldEventIDs q
    | None => [eventID]
    end.
Proof.
  intros Hq Hsize Hres eventID Hrefused q'.
  apply reachable_table_inv in Hq as (Hnd & Hdisj & Hunion & Hpre).
  subst q' eventID. revert Hrefused.
  rewrite addEvent_unfold, Hres. cbv zeta.
  rewrite saveEvent_buffer.
  assert (Hfresh : m_events q !! result (saveEvent event q) = None).
  { apply not_elem_of_dom. rewrite saveEvent_unfold.
    unfold table_ids, free_ids in *.
    destruct (last (m_oldEventIDs q)) as [id|] eqn:Hlast; unfold result;
      cbn [fst snd].
    - apply last_Some in Hlast as [l Hl]. rewrite Hl in Hdisj.
      rewrite list_to_set_app_L in Hdisj. set_solver.
    - apply last_None in Hlast. rewrite Hlast in *.
      assert (HA : A = dom (m_events q)) by set_solver.
      rewrite <- HA, (Hpre _), HA, size_dom.
      unfold wrap32. rewrite Z.mod_small by lia. lia. }
  revert Hfresh. rewrite saveEvent_unfold.
  destruct (last (m_oldEventIDs q)) as [id|] eqn:Hlast;
    unfold result, state_of, trace; cbn [fst snd]; intros Hfresh Hrefused;
    destruct (IEventQueueBuffer.addEvent _ (m_buffer q)) as [sent b'];
    cbn [fst snd] in *; subst sent; rewrite removeEvent_unfold;
    cbn [m_events set_buffer set_events set_oldEventIDs m_oldEventIDs];
    rewrite lookup_insert_eq;
    cbn [fst snd m_events set_buffer set_events set_oldEventIDs m_oldEventIDs];
    rewrite lookup_delete_eq, last_snoc, delete_insert_id by done.
  - apply last_Some in Hlast as [l Hl]. rewrite Hl, removelast_last. done.
  - apply last_None in Hlast. rewrite Hlast. done.
Qed.

Lemma addEvent_refused_witness :
  let q := state_of (adoptBuffer (Some (CScriptedBuffer.make [] 0))
                       (CEventQueue.new 0 100)) in
  let event := CEvent.make 5 7 42 in
  let q' := state_of (addEvent event q) in
  reachable q ∅ ∧
  m_events q' !! 0 = None ∧
  last (m_oldEventIDs q') = Some 0 ∧
  trace (addEvent event q) = [deleteData event] ∧
  m_events q' = m_events q ∧
  m_oldEventIDs q' = [0].
Proof.
  intros q event q'.
  assert (Hq : reachable q ∅)
    by exact (reach_adoptBuffer _ ∅ _ (reach_new 0 100)).
  split; [exact Hq|].
  apply (addEvent_refused event q ∅ Hq); [vm_compute | |]; reflexivity.
Defined.

(** ** Comparisons of doubles *)

Lemma Qltb_lt (x y : Q) : Qltb x y = true ↔ (x < y)%Q.
Proof.
  unfold Qltb. rewrite negb_true_iff, <- not_true_iff_false, Qle_bool_iff.
  split; [apply Qnot_le_lt | apply Qlt_not_le].
Qed.

Lemma Qltb_ge (x y : Q) : Qltb x y = false ↔ (y <= x)%Q.
Proof.
  unfold Qltb. rewrite negb_false_iff. apply Qle_bool_iff.
Qed.

Lemma Qle_bool_gt (x y : Q) : Qle_bool x y = false ↔ (y < x)%Q.
Proof.
  rewrite <- not_true_iff_false, Qle_bool_iff.
  split; [apply Qnot_le_lt | apply Qlt_not_le].
Qed.

(** ** Dequeue: the None verdict *)

(** C8 as stated fails: with a timeout of one second that has not elapsed,
    a None verdict of the buffer makes getEvent return false at once. *)
Lemma getEvent_none_returns_false :
  let none := (IEventQueueBuffer.kNone, CEvent.default, 0) in
  let q := state_of (adoptBuffer (Some (CScriptedBuffer.make [none] 0))
                       (CEventQueue.new 0 100)) in
  IEventQueueBuffer.isEmpty (m_buffer q) = false ∧
  (IEventQueueBuffer.getEvent CEvent.default (m_buffer q)).1.1.1
    = IEventQueueBuffer.kNone ∧
  (result (getEvent_pass 1 (CStopwatch.start 0) 0 0 CEvent.default q)).1
    = Return false ∧
  (result (getEvent 0 [(0, 0)%Q] CEvent.default 1 q)).1 = Some false.
Proof. cbv zeta. repeat split; vm_compute; reflexivity. Qed.

(** C8, amended.  When the buffer is not empty and its getEvent yields the
    None verdict, the pass changes nothing but the buffer, and: if the
    timeout is negative (infinite) or has already elapsed, the queue treats
    the verdict as a spurious wake and goes back to the wait loop, the call
    going on from the test of the loop; if the timeout is non-negative and
    has not elapsed, getEvent returns false. *)
Theorem getEvent_none_verdict timeout timer now_sweep now event q :
  IEventQueueBuffer.isEmpty (m_buffer q) = false →
  (IEventQueueBuffer.getEvent event (m_buffer q)).1.1.1 = IEventQueueBuffer.kNone →
  let elapsed := CStopwatch.getTime now timer in
  let r := getEvent_pass timeout timer now_sweep now event q in
  ((timeout < 0 ∨ timeout <= elapsed)%Q →
   (result r).1 = Retry ∧
   ∀ clock,
     getEvent_loop timeout timer ((now_sweep, now) :: clock) event q =
     getEvent_loop timeout timer clock (result r).2 (state_of r)) ∧
  ((0 <= timeout ∧ elapsed < timeout)%Q →
   (result r).1 = Return false ∧
   ∀ clock,
     result (getEvent_loop timeout timer ((now_sweep, now) :: clock) event q) =
     (Some false, (result r).2)) ∧
  state_of r =
    set_buffer (λ _, (IEventQueueBuffer.getEvent event (m_buffer q)).2) q ∧
  trace r = [].
Proof.
  intros Hne Hnone elapsed r.
  assert (Hloop : ∀ clock,
    getEvent_loop timeout timer ((now_sweep, now) :: clock) event q =
    let '(pass, q1, w1) := r in
    let '(b, q2, w2) :=
      match pass.1 with
      | Return b => ret (Some b, pass.2)
      | Retry => getEvent_loop timeout timer clock pass.2
      end q1 in
    (b, q2, w1 ++ w2)) by done.
  assert (Hpass : r =
    ((if Qltb timeout 0 || Qle_bool timeout elapsed then Retry else Return false,
      (IEventQueueBuffer.getEvent event (m_buffer q)).1.1.2),
     set_buffer (λ _, (IEventQueueBuffer.getEvent event (m_buffer q)).2) q,
     [])).
  { subst r. unfold getEvent_pass. unfold bind at 1. unfold gets at 1.
    rewrite Hne. unfold bind at 1. unfold call_buffer.
    destruct (IEventQueueBuffer.getEvent event (m_buffer q))
      as [[[verdict event'] dataID] b'].
    cbn [fst snd] in *. subst verdict. fold elapsed.
    by destruct (_ || _). }
  setoid_rewrite Hloop. rewrite Hpass. unfold result, state_of, trace.
  cbn [fst snd].
  split; [|split; [|done]].
  - intros Hretry.
    assert (Hb : Qltb timeout 0 || Qle_bool timeout elapsed = true).
    { destruct Hretry as [Hneg|Hel].
      - apply Qltb_lt in Hneg. by rewrite Hneg.
      - apply Qle_bool_iff in Hel. rewrite Hel. apply orb_true_r. }
    rewrite Hb. split; [reflexivity|]. intros clock.
    by destruct (getEvent_loop timeout timer clock _ _) as [[b q2] w2].
  - intros [Hpos Hlt]. apply Qltb_ge in Hpos. apply Qle_bool_gt in Hlt.
    rewrite Hpos, Hlt. done.
Qed.

Lemma getEvent_none_verdict_witness :
  let none := (IEventQueueBuffer.kNone, CEvent.default, 0) in
  let q := state_of (adoptBuffer (Some (CScriptedBuffer.make [none] 0))
                       (CEventQueue.new 0 100)) in
  let timer := CStopwatch.start 0 in
  (result (getEvent_pass (-1) timer 0 0 CEvent.default q)).1 = Retry ∧
  (result (getEvent_pass 1 timer 0 0 CEvent.default q)).1 = Return false.
Proof.
  intros none q timer. split.
  - apply (proj1 (getEvent_none_verdict (-1) timer 0 0 CEvent.default q
                    eq_refl eq_refl)).
    left. reflexivity.
  - apply (proj1 (proj2 (getEvent_none_verdict 1 timer 0 0 CEvent.default q
                           eq_refl eq_refl))).
    split; [discriminate | reflexivity].
Defined.

(** ** The timer queue *)

Lemma time_le_sub dt x y :
  time_le x y ↔ time_le (CTimer.sub dt x) (CTimer.sub dt y).
Proof.
  unfold time_le, CTimer.sub, CTimer.with_time. cbn [CTimer.m_time].
  unfold Qminus. split; intros H.
  - by apply Qplus_le_l.
  - by apply Qplus_le_l in H.
Qed.

#[local] Instance time_le_trans : Transitive time_le.
Proof. intros x y z. unfold time_le. apply Qle_trans. Qed.

Lemma push_Permutation v (c : list CTimer.t) : CPriorityQueue.push v c ≡ₚ v :: c.
Proof.
  induction c as [|x c IH]; cbn [CPriorityQueue.push]; [done|].
  destruct (Qltb _ _); [done|]. rewrite IH. apply Permutation_swap.
Qed.

Lemma push_sorted v c : queue_sorted c → queue_sorted (CPriorityQueue.push v c).
Proof.
  unfold queue_sorted. induction 1 as [|x c Hc IH Hx]; cbn [CPriorityQueue.push].
  - repeat constructor.
  - destruct (Qltb (CTimer.to_double v) (CTimer.to_double x)) eqn:Hlt.
    + apply Qltb_lt, Qlt_le_weak in Hlt.
      constructor; [by constructor|].
      constructor; [exact Hlt|].
      eapply Forall_impl; [exact Hx|]. intros y Hy. by etrans.
    + apply Qltb_ge in Hlt. constructor; [exact IH|].
      rewrite push_Permutation. by constructor.
Qed.

Lemma sub_sorted dt c : queue_sorted c → queue_sorted (map (CTimer.sub dt) c).
Proof.
  unfold queue_sorted. induction 1 as [|x c Hc IH Hx]; cbn [map]; constructor.
  - exact IH.
  - apply Forall_fmap. eapply Forall_impl; [exact Hx|].
    intros y Hy. by apply time_le_sub.
Qed.

Lemma pop_sorted c : queue_sorted c → queue_sorted (CPriorityQueue.pop c).
Proof.
  unfold queue_sorted. destruct 1; cbn [CPriorityQueue.pop tail];
    [constructor|done].
Qed.

Lemma erase_sorted index c :
  queue_sorted c → queue_sorted (CPriorityQueue.erase index c).
Proof.
  unfold queue_sorted, CPriorityQueue.erase. intros Hc. revert index.
  induction Hc as [|x c Hc IH Hx]; intros [|index]; cbn [delete list_delete].
  - constructor.
  - constructor.
  - exact Hc.
  - constructor; [apply IH | by apply Forall_delete].
Qed.

(** ** The expiry sweep in closed form *)

Lemma hasTimerExpired_unfold now event q :
  hasTimerExpired now event q =
  match m_timerQueue q with
  | [] => ((false, event), q, [])
  | first :: others =>
      let time := CStopwatch.getTime now (m_time q) in
      let q1 := set_timerQueue (map (CTimer.sub time))
                  (set_time (CStopwatch.reset now) q) in
      let timer := CTimer.sub time first in
      if Qltb 0 (CTimer.m_time timer) then ((false, event), q1, [])
      else
        ((true, CEvent.make CEvent.kTimer (CTimer.m_target timer) (addr_m_timerEvent q)),
         set_timerQueue
           (λ c, if CTimer.m_oneShot timer then c
                 else CPriorityQueue.push (CTimer.reset timer) c)
           (set_timerEvent (CTimer.fillEvent timer)
              (set_timerQueue CPriorityQueue.pop q1)),
         [])
  end.
Proof.
  unfold hasTimerExpired. unfold bind at 1. unfold gets at 1.
  destruct (m_timerQueue q) as [|first others] eqn:Hq;
    cbn [CPriorityQueue.empty]; [reflexivity|].
  run_monad. cbn [fst snd m_timerQueue set_timerQueue set_time].
  rewrite Hq. cbn [map CPriorityQueue.top head].
  unfold CTimer.to_double.
  destruct (Qltb 0 _); [reflexivity|].
  cbn [fst snd app]. unfold CTimer.isOneShot, CTimer.getTarget.
  change (CTimer.m_oneShot (CTimer.reset ?x)) with (CTimer.m_oneShot x).
  destruct (CTimer.m_oneShot _); reflexivity.
Qed.

Lemma newTimer_timerQueue now duration target q :
  m_timerQueue (state_of (newTimer now duration target q)) =
  CPriorityQueue.push
    (CTimer.make (IEventQueueBuffer.newTimer duration false (m_buffer q)).1
       duration (duration + CStopwatch.getTime now (m_time q))%Q
       (if target =? NULL
        then (IEventQueueBuffer.newTimer duration false (m_buffer q)).1
        else target)
       false)
    (m_timerQueue q).
Proof. reflexivity. Qed.

Lemma newOneShotTimer_timerQueue now duration target q :
  m_timerQueue (state_of (newOneShotTimer now duration target q)) =
  CPriorityQueue.push
    (CTimer.make (IEventQueueBuffer.newTimer duration true (m_buffer q)).1
       duration (duration + CStopwatch.getTime now (m_time q))%Q
       (if target =? NULL
        then (IEventQueueBuffer.newTimer duration true (m_buffer q)).1
        else target)
       true)
    (m_timerQueue q).
Proof. reflexivity. Qed.

Lemma deleteTimer_timerQueue timer q :
  m_timerQueue (state_of (deleteTimer timer q)) =
  match find_timer timer (m_timerQueue q) 0%nat with
  | Some index => CPriorityQueue.erase index (m_timerQueue q)
  | None => m_timerQueue q
  end.
Proof.
  unfold deleteTimer. run_monad. cbn [fst snd].
  by destruct (find_timer timer (m_timerQueue q) 0).
Qed.

Lemma hasTimerExpired_sorted now event q :
  queue_sorted (m_timerQueue q) →
  queue_sorted (m_timerQueue (state_of (hasTimerExpired now event q))).
Proof.
  intros Hq. rewrite hasTimerExpired_unfold.
  destruct (m_timerQueue q) as [|first others] eqn:Hqueue.
  { unfold state_of. cbn [fst snd]. by rewrite Hqueue. }
  cbv zeta. set (time := CStopwatch.getTime now (m_time q)).
  apply (sub_sorted time) in Hq. cbn [map] in Hq.
  destruct (Qltb 0 _); unfold state_of;
    cbn [fst snd m_timerQueue set_timerQueue set_timerEvent set_time];
    rewrite Hqueue; cbn [map CPriorityQueue.pop tail]; [exact Hq|].
  apply pop_sorted in Hq. cbn [CPriorityQueue.pop tail] in Hq.
  destruct (CTimer.m_oneShot _); [exact Hq | by apply push_sorted].
Qed.

Lemma after_call_sorted c q :
  queue_sorted (m_timerQueue q) → queue_sorted (m_timerQueue (after_call c q)).
Proof.
  intros Hq.
  destruct c; unfold after_call;
    try (rewrite newTimer_timerQueue; by apply push_sorted);
    try (rewrite newOneShotTimer_timerQueue; by apply push_sorted);
    try (rewrite deleteTimer_timerQueue; destruct (find_timer _ _ _);
         [by apply erase_sorted | done]);
    run_method; run_cases; done.
Qed.

Lemma getEvent_pass_sorted timeout timer now_sweep now event q :
  queue_sorted (m_timerQueue q) →
  queue_sorted
    (m_timerQueue (state_of (getEvent_pass timeout timer now_sweep now event q))).
Proof.
  intros Hq. unfold getEvent_pass.
  unfold bind at 1. unfold gets at 1.
  destruct (IEventQueueBuffer.isEmpty (m_buffer q)).
  - unfold bind at 1.
    pose proof (hasTimerExpired_sorted now_sweep event q Hq) as Hs.
    destruct (hasTimerExpired now_sweep event q) as [[[expired event'] q1] w1].
    unfold state_of in Hs. cbn [fst snd] in *.
    destruct expired; [done|].
    destruct (_ && _); [done|].
    run_method. run_cases; done.
  - unfold bind at 1. unfold call_buffer at 1. cbn [fst snd].
    destruct (IEventQueueBuffer.getEvent event (m_buffer q))
      as [[[verdict event'] dataID] b'].
    cbn [fst snd].
    destruct verdict.
    + by destruct (_ || _).
    + done.
    + unfold bind, ret. rewrite removeEvent_unfold.
      cbn [m_events set_buffer]. by destruct (m_events q !! dataID).
Qed.

(** In every reachable state the timer queue is in ascending order of
    remaining time: its first record is a smallest one. *)
Lemma reachable_sorted q A : reachable q A → queue_sorted (m_timerQueue q).
Proof.
  induction 1 as [| q A event _ IH | q A eventID _ IH | q A event _ IH
                  | q A timeout timer now_sweep now event _ IH
                  | q A buffer _ IH | q A c _ IH].
  - constructor.
  - rewrite saveEvent_unfold. by destruct (last _).
  - rewrite removeEvent_unfold. by destruct (_ !! _).
  - rewrite addEvent_unfold. destruct (is_reserved _); [done|]. cbv zeta.
    destruct (IEventQueueBuffer.addEvent _ _) as [[|] b']; cbn [fst snd].
    + unfold state_of. cbn [fst snd]. rewrite saveEvent_unfold.
      by destruct (last _).
    + unfold state_of at 1. cbn [fst snd]. rewrite removeEvent_unfold.
      cbn [m_events set_buffer].
      destruct (_ !! _); unfold state_of; cbn [fst snd];
        rewrite saveEvent_unfold; by destruct (last _).
  - by apply getEvent_pass_sorted.
  - by rewrite adoptBuffer_unfold.
  - by apply after_call_sorted.
Qed.

(** ** The count of a Timer event *)

Lemma periods_nonneg x :
  (0 < CTimer.m_timeout x)%Q → (CTimer.m_time x <= 0)%Q → (1 <= periods x)%Q.
Proof.
  intros Hpos Hdue. unfold periods.
  apply Qle_shift_div_l; [exact Hpos|].
  rewrite Qmult_1_l. unfold Qminus.
  rewrite <- (Qplus_0_r (CTimer.m_timeout x)) at 1.
  apply Qplus_le_r. apply (Qopp_le_compat _ 0) in Hdue. exact Hdue.
Qed.

Lemma static_cast_periods x :
  (0 < CTimer.m_timeout x)%Q → (CTimer.m_time x <= 0)%Q →
  Qfloor (periods x) < 2 ^ 32 →
  static_cast_UInt32 (periods x) = Qfloor (periods x).
Proof.
  intros Hpos Hdue Hfits.
  pose proof (periods_nonneg x Hpos Hdue) as Hone.
  assert (Hnn : (0 <= periods x)%Q) by (eapply Qle_trans; [|exact Hone]; done).
  unfold static_cast_UInt32, Qtrunc.
  apply Qle_bool_iff in Hnn as Hb. rewrite Hb.
  apply Qfloor_resp_le in Hnn. change (Qfloor 0) with 0 in Hnn.
  unfold wrap32. apply Z.mod_small. lia.
Qed.

Lemma periods_zero_remaining x :
  (0 < CTimer.m_timeout x)%Q → (CTimer.m_time x == 0)%Q → (periods x == 1)%Q.
Proof.
  intros Hpos Hzero. unfold periods. rewrite Hzero.
  field. intros H. rewrite H in Hpos. by apply Qlt_irrefl in Hpos.
Qed.


(** ** One-shot timers leave the queue *)

Lemma hasTimerExpired_queued_timers now event q x :
  x ∈ queued_timers (state_of (hasTimerExpired now event q)) →
  x ∈ queued_timers q.
Proof.
  unfold queued_timers. rewrite hasTimerExpired_unfold.
  destruct (m_timerQueue q) as [|first others] eqn:Hqueue.
  { unfold state_of. cbn [fst snd]. by rewrite Hqueue. }
  cbv zeta. set (time := CStopwatch.getTime now (m_time q)).
  assert (Hsub : ∀ c, map CTimer.getTimer (map (CTimer.sub time) c)
                      = map CTimer.getTimer c).
  { intros c. rewrite map_map. reflexivity. }
  destruct (Qltb 0 _); unfold state_of;
    cbn [fst snd m_timerQueue set_timerQueue set_timerEvent set_time];
    rewrite Hqueue.
  - by rewrite Hsub.
  - cbn [map CPriorityQueue.pop tail].
    destruct (CTimer.m_oneShot _).
    + rewrite Hsub. set_solver.
    + rewrite push_Permutation. cbn [map]. rewrite Hsub.
      unfold CTimer.getTimer, CTimer.reset, CTimer.sub, CTimer.with_time.
      cbn [CTimer.m_timer]. set_solver.
Qed.

Lemma sweeps_queued_timers nows event q x :
  x ∉ queued_timers q → x ∉ queued_timers (sweeps nows event q).
Proof.
  revert q. induction nows as [|now nows IH]; intros q Hx; [exact Hx|].
  cbn [sweeps]. apply IH. intros Hin. apply Hx.
  by apply hasTimerExpired_queued_timers in Hin.
Qed.

(** ** The expiry sweep *)

(** The two outcomes of a sweep of a queue that is not empty, [timer] being
    the first of the decremented records. *)
Lemma hasTimerExpired_cases now event q timer rest :
  let swept := map (CTimer.sub (CStopwatch.getTime now (m_time q))) (m_timerQueue q) in
  swept = timer :: rest →
  hasTimerExpired now event q =
  if Qltb 0 (CTimer.m_time timer)
  then ((false, event),
        set_timerQueue (λ _, swept) (set_time (CStopwatch.reset now) q), [])
  else ((true, CEvent.make CEvent.kTimer (CTimer.m_target timer)
                 (addr_m_timerEvent q)),
        set_timerQueue
          (λ _, if CTimer.m_oneShot timer then rest
                else CPriorityQueue.push (CTimer.reset timer) rest)
          (set_timerEvent (CTimer.fillEvent timer)
             (set_time (CStopwatch.reset now) q)),
        []).
Proof.
  intros swept Hswept. subst swept. rewrite hasTimerExpired_unfold.
  destruct (m_timerQueue q) as [|first others] eqn:Hqueue; [done|].
  cbv zeta. cbn [map] in Hswept.
  injection Hswept as Htimer Hrest. rewrite Htimer.
  destruct (Qltb 0 (CTimer.m_time timer)).
  - unfold set_timerQueue, set_time. cbn. rewrite Hqueue. cbn [map].
    by rewrite Htimer, Hrest.
  - unfold set_timerQueue, set_timerEvent, set_time. cbn.
    rewrite Hqueue. cbn [map tail]. by rewrite Hrest.
Qed.

Lemma fillEvent_due timer payload :
  (CTimer.m_time timer <= 0)%Q →
  CTimer.fillEvent timer payload =
  CTimerEvent.mk (CTimer.m_timer timer) (static_cast_UInt32 (periods timer)).
Proof.
  intros Hdue. unfold CTimer.fillEvent. apply Qle_bool_iff in Hdue.
  by rewrite Hdue.
Qed.



(** C9 as stated fails: a timer of period 1/20 s swept exactly one period
    after its creation is popped with a remaining time of 0, and the count
    stored in the payload is 1, not 0. *)
Lemma hasTimerExpired_count_at_zero :
  let q := state_of (newTimer 0 (1 # 20) 7 (CEventQueue.new 0 100)) in
  let now := (1 # 20)%Q in
  let r := hasTimerExpired now CEvent.default q in
  (∃ timer rest,
     map (CTimer.sub (CStopwatch.getTime now (m_time q))) (m_timerQueue q)
       = timer :: rest ∧
     (CTimer.m_time timer == 0)%Q) ∧
  (result r).1 = true ∧
  CTimerEvent.m_count (m_timerEvent (state_of r)) = 1 ∧
  CTimerEvent.m_count (m_timerEvent (state_of r)) ≠ 0.
Proof.
  cbv zeta. split; [|split; [|split]].
  - eexists _, _. split; [reflexivity|]. reflexivity.
  - reflexivity.
  - reflexivity.
  - vm_compute. discriminate.
Qed.

(** C9, amended.  When the expiry sweep pops a timer record whose
    remaining time is exactly 0, the count stored in the Timer-event
    payload is 1. *)
Theorem hasTimerExpired_count_zero_remaining now event q timer rest :
  map (CTimer.sub (CStopwatch.getTime now (m_time q))) (m_timerQueue q)
    = timer :: rest →
  (CTimer.m_time timer == 0)%Q →
  (0 < CTimer.m_timeout timer)%Q →
  (result (hasTimerExpired now event q)).1 = true ∧
  CTimerEvent.m_count (m_timerEvent (state_of (hasTimerExpired now event q))) = 1.
Proof.
  intros Hswept Hzero Hpos.
  assert (Hdue : (CTimer.m_time timer <= 0)%Q) by (rewrite Hzero; apply Qle_refl).
  rewrite (hasTimerExpired_cases now event q timer rest Hswept).
  apply Qltb_ge in Hdue as Hb. rewrite Hb.
  unfold result, state_of. cbn [fst snd m_timerEvent set_timerQueue set_timerEvent].
  rewrite (fillEvent_due timer _ Hdue). cbn [CTimerEvent.m_count].
  split; [reflexivity|].
  assert (Hfloor : Qfloor (periods timer) = 1)
    by (rewrite (periods_zero_remaining timer Hpos Hzero); reflexivity).
  rewrite static_cast_periods; [exact Hfloor | exact Hpos | exact Hdue |].
  rewrite Hfloor. reflexivity.
Qed.

Lemma hasTimerExpired_count_zero_remaining_witness :
  let q := state_of (newTimer 0 (1 # 20) 7 (CEventQueue.new 0 100)) in
  let r := hasTimerExpired (1 # 20) CEvent.default q in
  (result r).1 = true ∧ CTimerEvent.m_count (m_timerEvent (state_of r)) = 1.
Proof.
  intros q r.
  apply (hasTimerExpired_count_zero_remaining (1 # 20) CEvent.default q _ _ eq_refl);
    reflexivity.
Defined.

(** ** The methods that only read the queue *)

Lemma getNextTimerTimeout_unfold q :
  getNextTimerTimeout q =
  (match m_timerQueue q with
   | [] => (-1)%Q
   | timer :: _ =>
       if Qle_bool (CTimer.m_time timer) 0 then 0%Q else CTimer.m_time timer
   end, q, []).
Proof.
  unfold getNextTimerTimeout, bind, gets, ret. cbn [fst snd].
  destruct (m_timerQueue q) as [|timer others]; cbn [CPriorityQueue.top head];
    [reflexivity|].
  unfold CTimer.to_double. by destruct (Qle_bool _ _).
Qed.

Lemma isEmpty_unfold q :
  isEmpty q =
  (IEventQueueBuffer.isEmpty (m_buffer q)
   && negb (Qeq_bool (result (getNextTimerTimeout q)) 0), q, []).
Proof.
  unfold isEmpty. unfold bind at 1. unfold gets at 1.
  unfold bind. rewrite getNextTimerTimeout_unfold. reflexivity.
Qed.

(** C10 (read-only methods).  isEmpty, getNextTimerTimeout and getHandler
    return with the queue unchanged (event-data table, free-id stack, timer
    queue and its stored remaining times, timer set, handler table, type
    registry, clock) and call nothing outside.  getNextTimerTimeout
    compares the stored remaining times as they are, without the clock: its
    result and that of isEmpty do not depend on the clock, so a timer whose
    stored remaining time is positive is not reported as due even when the
    wall clock has passed its expiry, although a sweep at that moment
    fires it. *)
Theorem read_only_methods type target q :
  isEmpty q = (result (isEmpty q), q, []) ∧
  getNextTimerTimeout q = (result (getNextTimerTimeout q), q, []) ∧
  getHandler type target q = (result (getHandler type target q), q, []) ∧
  result (getNextTimerTimeout q) =
    match m_timerQueue q with
    | [] => (-1)%Q
    | timer :: _ =>
        if Qle_bool (CTimer.m_time timer) 0 then 0%Q else CTimer.m_time timer
    end ∧
  (∀ clock,
     result (getNextTimerTimeout (set_time (λ _, clock) q))
       = result (getNextTimerTimeout q) ∧
     result (isEmpty (set_time (λ _, clock) q)) = result (isEmpty q)) ∧
  (∀ now event first others,
     m_timerQueue q = first :: others →
     (0 < CTimer.m_time first)%Q →
     (CTimer.m_time first <= CStopwatch.getTime now (m_time q))%Q →
     result (getNextTimerTimeout q) = CTimer.m_time first ∧
     result (isEmpty q) = IEventQueueBuffer.isEmpty (m_buffer q) ∧
     (result (hasTimerExpired now event q)).1 = true).
Proof.
  split; [by rewrite isEmpty_unfold|].
  split; [by rewrite getNextTimerTimeout_unfold|].
  split; [by rewrite getHandler_unfold|].
  split; [by rewrite getNextTimerTimeout_unfold|].
  split.
  { intros clock. rewrite !isEmpty_unfold, !getNextTimerTimeout_unfold. done. }
  intros now event first others Hqueue Hpos Hpast.
  rewrite isEmpty_unfold, getNextTimerTimeout_unfold, hasTimerExpired_unfold.
  unfold result. cbn [fst snd]. rewrite Hqueue.
  apply Qle_bool_gt in Hpos as Hb. rewrite Hb.
  split; [reflexivity|]. split.
  - assert (Hne : Qeq_bool (CTimer.m_time first) 0 = false).
    { apply not_true_iff_false. intros Heq. apply Qeq_bool_iff in Heq.
      rewrite Heq in Hpos. by apply Qlt_irrefl in Hpos. }
    rewrite Hne. apply andb_true_r.
  - cbv zeta.
    assert (Hdue : Qltb 0 (CTimer.m_time
              (CTimer.sub (CStopwatch.getTime now (m_time q)) first)) = false).
    { apply Qltb_ge. unfold CTimer.sub, CTimer.with_time. cbn [CTimer.m_time].
      unfold Qminus. rewrite <- (Qplus_opp_r (CStopwatch.getTime now (m_time q))).
      by apply Qplus_le_l. }
    by rewrite Hdue.
Qed.

Lemma read_only_methods_witness :
  let q := state_of (newTimer 0 (1 # 20) 7 (CEventQueue.new 0 100)) in
  result (getNextTimerTimeout q) = (1 # 20)%Q ∧
  result (isEmpty q) = true ∧
  (result (hasTimerExpired (1 # 10) CEvent.default q)).1 = true.
Proof.
  intros q.
  destruct (read_only_methods 0 0 q) as (_ & _ & _ & _ & _ & Hstale).
  apply (Hstale (1 # 10)%Q CEvent.default _ _ eq_refl).
  - reflexivity.
  - vm_compute. discriminate.
Defined.

(** ** Scenarios *)

(** S1: an event is enqueued, dequeued and dispatched; its id is free
    again afterwards. *)
Example enqueue_dequeue_echo :
  let r1 := registerType "x" (CEventQueue.new 0 100) in
  let type := result r1 in
  let q1 := state_of (adoptHandler_type type 7 11 (state_of r1)) in
  let q2 := state_of (addEvent (CEvent.make type 7 42) q1) in
  let r3 := getEvent 0 [(0, 0)%Q] CEvent.default (1 # 10) q2 in
  let r4 := dispatchEvent (result r3).2 (state_of r3) in
  type = 4 ∧
  result r3 = (Some true, CEvent.make 4 7 42) ∧
  result r4 = true ∧
  trace r4 = [run 11 (CEvent.make 4 7 42)] ∧
  m_events (state_of r4) = ∅ ∧
  m_oldEventIDs (state_of r4) = [0].
Proof. vm_compute. done. Qed.

(** S3: a one-shot timer fires once, after its duration, and the next call
    times out. *)
Example one_shot_timer_fires_once :
  let q := state_of (newOneShotTimer 0 (1 # 20) 7 (CEventQueue.new 0 100)) in
  let r1 := getEvent 0 [(0, 0)%Q; (1 # 20, 1 # 20)%Q] CEvent.default 1 q in
  let r2 := getEvent (1 # 20) [(1 # 20, 1 # 20)%Q; (3 # 20, 3 # 20)%Q]
              CEvent.default (1 # 10) (state_of r1) in
  result r1 = (Some true, CEvent.make CEvent.kTimer 7 100) ∧
  m_timerQueue (state_of r1) = [] ∧
  (result r2).1 = Some false.
Proof. vm_compute. done. Qed.

(** * Further properties of the queue *)

(** ** Type names *)

Lemma getTypeName_unfold type q :
  getTypeName type q =
  (if type =? CEvent.kUnknown then "nil"%string
   else if type =? CEvent.kQuit then "quit"%string
   else if type =? CEvent.kSystem then "system"%string
   else if type =? CEvent.kTimer then "timer"%string
   else default "<unknown>"%string (m_typeMap q !! type),
   q, []).
Proof.
  unfold getTypeName.
  repeat (match goal with |- context [?a =? ?b] => destruct (a =? b) end;
          [reflexivity|]).
  unfold bind, gets, ret. cbn [fst snd].
  by destruct (m_typeMap q !! type).
Qed.

Lemma getTypeName_registered type q :
  CEvent.kLast ≤ type →
  result (getTypeName type q) = default "<unknown>"%string (m_typeMap q !! type).
Proof.
  intros Htype. rewrite getTypeName_unfold. unfold result. cbn [fst snd].
  unfold CEvent.kLast, CEvent.kUnknown, CEvent.kQuit, CEvent.kSystem,
    CEvent.kTimer in *.
  repeat (match goal with |- context [?a =? ?b] =>
            destruct (Z.eqb_spec a b); [lia|] end).
  reflexivity.
Qed.

Lemma std_map_insert_lookup {V : Type} (k k' : Z) (v : V) (m : gmap Z V) :
  std_map_insert k v m !! k' =
  if decide (k' = k) then Some (default v (m !! k)) else m !! k'.
Proof.
  unfold std_map_insert. destruct (m !! k) as [v'|] eqn:Hk; case_decide; subst.
  - by rewrite Hk.
  - done.
  - by rewrite lookup_insert_eq.
  - by rewrite lookup_insert_ne.
Qed.

(** X1 (type names are stable).  A registration changes the name of at most
    one type: after registerType, and after registerTypeOnce on a slot that
    holds Unknown, getTypeName reports for every type the name it reported
    before, unless the type is the one just allocated and had no entry in
    the registry, in which case the registered name is now recorded for it.
    A name registered before is never replaced.  registerTypeOnce on any
    other slot changes no name. *)
Theorem registration_keeps_names name type q :
  let changed q' :=
    type = m_nextType q ∧ m_typeMap q !! type = None ∧
    m_typeMap q' !! type = Some name in
  let kept q' :=
    result (getTypeName type q') = result (getTypeName type q) in
  (kept (state_of (registerType name q)) ∨ changed (state_of (registerType name q))) ∧
  (kept (state_of (registerTypeOnce CEvent.kUnknown name q)) ∨
   changed (state_of (registerTypeOnce CEvent.kUnknown name q))) ∧
  (∀ slot, slot ≠ CEvent.kUnknown →
     kept (state_of (registerTypeOnce slot name q))).
Proof.
  intros changed kept.
  assert (Hreg : kept (state_of (registerType name q))
                 ∨ changed (state_of (registerType name q))).
  { subst kept changed. cbv beta. rewrite registerType_unfold.
    unfold state_of. cbn [fst snd m_typeMap set_nextType set_typeMap].
    rewrite !getTypeName_unfold. unfold result. cbn [fst snd m_typeMap set_nextType set_typeMap].
    rewrite std_map_insert_lookup.
    destruct (decide (type = m_nextType q)) as [->|Hne]; [|by left].
    destruct (m_typeMap q !! m_nextType q) as [old|] eqn:Hold; [by left|].
    right. done. }
  split; [exact Hreg|]. split; [exact Hreg|].
  intros slot Hslot. subst kept. cbv beta.
  rewrite registerTypeOnce_unfold. apply Z.eqb_neq in Hslot. by rewrite Hslot.
Qed.

Lemma registration_keeps_names_witness :
  result (getTypeName 4 (state_of (registerTypeOnce 9 "x" (CEventQueue.new 0 100))))
  = result (getTypeName 4 (CEventQueue.new 0 100)).
Proof.
  apply (registration_keeps_names "x" 4 (CEventQueue.new 0 100)).
  vm_compute. discriminate.
Defined.

Lemma registerTypes_keeps_entries names q type name :
  m_typeMap q !! type = Some name →
  m_typeMap (state_of (registerTypes names q)) !! type = Some name.
Proof.
  revert q. induction names as [|n names IH]; intros q Hq; [exact Hq|].
  cbn [registerTypes]. unfold bind at 1. rewrite registerType_unfold.
  set (q1 := set_nextType _ _).
  assert (Hq1 : m_typeMap q1 !! type = Some name).
  { subst q1. cbn [m_typeMap set_nextType set_typeMap].
    rewrite std_map_insert_lookup. case_decide; subst; by rewrite Hq. }
  specialize (IH q1 Hq1). unfold bind, ret, state_of in *.
  destruct (registerTypes names q1) as [[types q2] w2]. exact IH.
Qed.

(** X2 (consecutive type ids).  While the type counter does not pass
    [2^32], successive calls of registerType return consecutive,
    pairwise distinct types starting at the counter's value ([kLast] for a
    new queue), and afterwards getTypeName maps each returned type back to
    the name it was registered with. *)
Theorem registerTypes_consecutive names q :
  registry_ok q →
  m_nextType q + Z.of_nat (length names) ≤ 2 ^ 32 →
  let r := registerTypes names q in
  result r = seqZ (m_nextType q) (Z.of_nat (length names)) ∧
  NoDup (result r) ∧
  (∀ (i : nat) name, names !! i = Some name →
     result (getTypeName (m_nextType q + Z.of_nat i) (state_of r)) = name).
Proof.
  intros Hok Hroom r. subst r.
  cut (result (registerTypes names q) = seqZ (m_nextType q) (Z.of_nat (length names)) ∧
       (∀ (i : nat) name, names !! i = Some name →
          m_typeMap (state_of (registerTypes names q)) !! (m_nextType q + Z.of_nat i)
          = Some name)).
  { intros [Hres Hnames]. split; [exact Hres|]. split.
    - rewrite Hres. apply NoDup_seqZ.
    - intros i name Hi. destruct Hok as [Hnext _].
      rewrite getTypeName_registered by lia. by rewrite (Hnames i name Hi). }
  revert q Hok Hroom. induction names as [|n names IH]; intros q Hok Hroom.
  { split; [reflexivity|]. intros i name Hi. by rewrite lookup_nil in Hi. }
  cbn [registerTypes]. unfold bind at 1 3. rewrite registerType_unfold.
  set (q1 := set_nextType _ _).
  assert (Hfresh : m_typeMap q !! m_nextType q = None).
  { destruct Hok as [Hnext Hkeys].
    destruct (m_typeMap q !! m_nextType q) eqn:Hlook; [|done].
    assert (Hsome : is_Some (m_typeMap q !! m_nextType q)) by eauto.
    specialize (Hkeys _ Hsome). lia. }
  assert (Hstored : m_typeMap q1 !! m_nextType q = Some n).
  { subst q1. cbn [m_typeMap set_nextType set_typeMap].
    rewrite std_map_insert_lookup, Hfresh. by rewrite decide_True. }
  destruct names as [|n' names].
  { cbn [registerTypes]. unfold bind, ret, result, state_of. cbn [fst snd length].
    split; [reflexivity|].
    intros [|i] name Hi; [|by rewrite lookup_cons, lookup_nil in Hi].
    injection Hi as <-. by rewrite Z.add_0_r. }
  cbn [length] in Hroom.
  assert (Hroom1 : m_nextType q + 1 < 2 ^ 32) by lia.
  assert (Hok1 : registry_ok q1)
    by exact (registry_ok_registerType n q Hok Hroom1).
  assert (Hnext1 : m_nextType q1 = m_nextType q + 1).
  { subst q1. cbn [m_nextType set_nextType set_typeMap].
    unfold wrap32. apply Z.mod_small. destruct Hok as [Hnext _].
    unfold CEvent.kLast in *. lia. }
  destruct (IH q1 Hok1) as [Hres Hnames].
  { rewrite Hnext1. cbn [length]. lia. }
  pose proof (registerTypes_keeps_entries (n' :: names) q1 _ _ Hstored) as Hkept.
  unfold bind, ret, result, state_of in *.
  destruct (registerTypes (n' :: names) q1) as [[types q2] w2].
  cbn [fst snd] in *. split.
  - rewrite Hres, Hnext1.
    change (length (n :: n' :: names)) with (S (length (n' :: names))).
    rewrite Nat2Z.inj_succ. rewrite (seqZ_cons (m_nextType q)) by lia.
    by rewrite Z.pred_succ.
  - intros [|i] name Hi.
    + injection Hi as <-. by rewrite Z.add_0_r.
    + rewrite lookup_cons in Hi. specialize (Hnames i name Hi).
      rewrite Hnext1 in Hnames. rewrite <- Hnames. f_equal. lia.
Qed.

Lemma registerTypes_consecutive_witness :
  let r := registerTypes ["a"; "b"; "c"]%string (CEventQueue.new 0 100) in
  result r = [4; 5; 6] ∧
  result (getTypeName 5 (state_of r)) = "b"%string.
Proof.
  intros r.
  destruct (registerTypes_consecutive ["a"; "b"; "c"]%string (CEventQueue.new 0 100))
    as (Hres & _ & Hnames).
  - exact (registry_ok_new 0 100).
  - vm_compute. discriminate.
  - split; [exact Hres|]. exact (Hnames 1%nat "b"%string eq_refl).
Defined.

(** ** The order of the handler keys *)

(** X3 (handler keys are strictly ordered).  CTypeTarget's operator< is a
    strict total order, by type first and by target second: no key is
    below itself, the order is transitive, and of two keys either one is
    below the other or they have the same type and target. *)
Theorem CTypeTarget_lt_strict_total :
  (∀ x, CTypeTarget.lt x x = false) ∧
  (∀ x y z, CTypeTarget.lt x y = true → CTypeTarget.lt y z = true →
            CTypeTarget.lt x z = true) ∧
  (∀ x y, CTypeTarget.lt x y = true → CTypeTarget.lt y x = false) ∧
  (∀ x y, CTypeTarget.lt x y = true ∨ x = y ∨ CTypeTarget.lt y x = true).
Proof.
  unfold CTypeTarget.lt. repeat split.
  - intros [t p]. cbn.
    rewrite orb_false_iff, andb_false_iff, !Z.ltb_ge. lia.
  - intros [t1 p1] [t2 p2] [t3 p3]. cbn.
    rewrite !orb_true_iff, !andb_true_iff, !Z.ltb_lt, !Z.eqb_eq. lia.
  - intros [t1 p1] [t2 p2]. cbn.
    rewrite orb_true_iff, orb_false_iff, andb_true_iff, andb_false_iff,
      !Z.ltb_lt, !Z.ltb_ge, Z.eqb_eq, Z.eqb_neq. lia.
  - intros [t1 p1] [t2 p2]. cbn.
    rewrite !orb_true_iff, !andb_true_iff, !Z.ltb_lt, !Z.eqb_eq.
    destruct (Z.lt_trichotomy t1 t2) as [?|[->|?]]; [tauto| |tauto].
    destruct (Z.lt_trichotomy p1 p2) as [?|[->|?]]; tauto.
Qed.

Lemma CTypeTarget_lt_strict_total_witness :
  CTypeTarget.lt (CTypeTarget.mk 4 7) (CTypeTarget.mk 5 2) = true.
Proof.
  destruct CTypeTarget_lt_strict_total as (_ & Htrans & _).
  apply (Htrans _ (CTypeTarget.mk 4 9)); reflexivity.
Defined.

(** ** Saving and removing events *)

Lemma result_mk {A : Type} (a : A) q w : result (a, q, w) = a.
Proof. reflexivity. Qed.

Lemma state_of_mk {A : Type} (a : A) q w : state_of (a, q, w) = q.
Proof. reflexivity. Qed.

Lemma trace_mk {A : Type} (a : A) q w : trace (a, q, w) = w.
Proof. reflexivity. Qed.

(** X4 (save/remove round trip).  Removing the id that saveEvent returned
    gives back the saved event, takes the id out of the event-data table
    and leaves it on top of the free-id stack; removing the same id once
    more finds nothing: it returns the default event and changes
    nothing. *)
Theorem saveEvent_removeEvent event q :
  let s := saveEvent event q in
  let r := removeEvent (result s) (state_of s) in
  result r = event ∧
  m_events (state_of r) !! result s = None ∧
  last (m_oldEventIDs (state_of r)) = Some (result s) ∧
  removeEvent (result s) (state_of r) = (CEvent.default, state_of r, []).
Proof.
  intros s r.
  pose proof (saveEvent_stored event q) as Hstored. fold s in Hstored.
  assert (Hr : r = (event,
            set_oldEventIDs (λ ids, ids ++ [result s])
              (set_events (delete (result s)) (state_of s)), [])).
  { subst r. rewrite removeEvent_unfold. by rewrite Hstored. }
  rewrite Hr, result_mk, state_of_mk.
  cbn [m_events m_oldEventIDs set_events set_oldEventIDs].
  split; [reflexivity|]. split; [apply lookup_delete_eq|].
  split; [apply last_snoc|].
  rewrite removeEvent_unfold.
  cbn [m_events m_oldEventIDs set_events set_oldEventIDs].
  by rewrite lookup_delete_eq.
Qed.

(** X5 (freed ids are reused, last freed first).  After an event has been
    removed, the next saveEvent reuses its id: the new event is stored
    under that id, the other entries of the table are as before, and the
    free-id stack is back to what it was before the removal. *)
Theorem removeEvent_saveEvent_reuses eventID old event q :
  m_events q !! eventID = Some old →
  let r := removeEvent eventID q in
  let s := saveEvent event (state_of r) in
  result r = old ∧
  result s = eventID ∧
  m_events (state_of s) = <[eventID := event]> (m_events q) ∧
  m_oldEventIDs (state_of s) = m_oldEventIDs q.
Proof.
  intros Hold r s. subst s r.
  rewrite removeEvent_unfold, Hold, result_mk, state_of_mk.
  rewrite saveEvent_unfold.
  cbn [m_events m_oldEventIDs set_events set_oldEventIDs].
  rewrite last_snoc, result_mk, state_of_mk.
  cbn [m_events m_oldEventIDs set_events set_oldEventIDs].
  rewrite removelast_last, insert_delete_eq. done.
Qed.

Lemma removeEvent_saveEvent_reuses_witness :
  let e1 := CEvent.make 5 7 41 in
  let e2 := CEvent.make 5 7 42 in
  let e3 := CEvent.make 6 8 43 in
  let q := state_of (saveEvent e2 (state_of (saveEvent e1 (CEventQueue.new 0 100)))) in
  let r := removeEvent 0 q in
  let s := saveEvent e3 (state_of r) in
  result r = e1 ∧ result s = 0 ∧
  m_events (state_of s) = <[0 := e3]> (m_events q) ∧
  m_oldEventIDs (state_of s) = m_oldEventIDs q.
Proof.
  intros e1 e2 e3 q r s.
  exact (removeEvent_saveEvent_reuses 0 e1 e3 q eq_refl).
Defined.

Lemma saveEvent_fresh_id event q A :
  reachable q A →
  Z.of_nat (size (m_events q)) < 2 ^ 32 →
  m_events q !! result (saveEvent event q) = None.
Proof.
  intros Hq Hsize.
  apply reachable_table_inv in Hq as (Hnd & Hdisj & Hunion & Hpre).
  apply not_elem_of_dom. rewrite saveEvent_unfold.
  unfold table_ids, free_ids in *.
  destruct (last (m_oldEventIDs q)) as [id|] eqn:Hlast; unfold result;
    cbn [fst snd].
  - apply last_Some in Hlast as [l Hl]. rewrite Hl in Hdisj.
    rewrite list_to_set_app_L in Hdisj. set_solver.
  - apply last_None in Hlast. rewrite Hlast in *.
    assert (HA : A = dom (m_events q)) by set_solver.
    rewrite <- HA, (Hpre _), HA, size_dom.
    unfold wrap32. rewrite Z.mod_small by lia. lia.
Qed.

(** X6 (saving never overwrites a pending event).  In a reachable state
    that holds fewer than [2^32] events, the id that saveEvent chooses is
    not in use: every event stored before is still stored under its id
    afterwards, the new event is stored under the new id, and the table has
    exactly one entry more. *)
Theorem saveEvent_keeps_pending event q A :
  reachable q A →
  Z.of_nat (size (m_events q)) < 2 ^ 32 →
  let s := saveEvent event q in
  m_events q !! result s = None ∧
  m_events (state_of s) !! result s = Some event ∧
  (∀ id pending, m_events q !! id = Some pending →
     m_events (state_of s) !! id = Some pending) ∧
  size (m_events (state_of s)) = S (size (m_events q)).
Proof.
  intros Hq Hsize s.
  pose proof (saveEvent_fresh_id event q A Hq Hsize) as Hfresh. fold s in Hfresh.
  assert (Hs : m_events (state_of s) = <[result s := event]> (m_events q)).
  { subst s. rewrite saveEvent_unfold. by destruct (last (m_oldEventIDs q)). }
  split; [exact Hfresh|]. split; [|split].
  - rewrite Hs. apply lookup_insert_eq.
  - intros id pending Hid. rewrite Hs.
    rewrite lookup_insert_ne; [exact Hid|]. intros <-. by rewrite Hfresh in Hid.
  - rewrite Hs. by apply map_size_insert_None.
Qed.

Lemma saveEvent_keeps_pending_witness :
  let e1 := CEvent.make 5 7 41 in
  let e2 := CEvent.make 5 7 42 in
  let q := state_of (saveEvent e1 (CEventQueue.new 0 100)) in
  let s := saveEvent e2 q in
  reachable q (∅ ∪ {[result (saveEvent e1 (CEventQueue.new 0 100))]}) ∧
  m_events q !! result s = None ∧
  m_events (state_of s) !! 0 = Some e1 ∧
  size (m_events (state_of s)) = 2%nat.
Proof.
  intros e1 e2 q s.
  assert (Hq : reachable q (∅ ∪ {[result (saveEvent e1 (CEventQueue.new 0 100))]}))
    by exact (reach_saveEvent _ ∅ e1 (reach_new 0 100)).
  split; [exact Hq|].
  destruct (saveEvent_keeps_pending e2 q _ Hq) as (Hfresh & _ & Hkept & Hsize).
  { vm_compute. reflexivity. }
  split; [exact Hfresh|]. split; [exact (Hkept 0 e1 eq_refl) | exact Hsize].
Defined.

(** ** Ids across a buffer swap *)

(** X7 (a buffer swap invalidates every id and restarts the allocation).
    After adoptBuffer no id is known any more: removeEvent returns the
    default event for every id and changes nothing, and the next saveEvent
    hands out id 0.  The swap touches neither the timers (the records
    created through the old buffer stay in the timer queue) nor the
    handlers nor the type registry. *)
Theorem adoptBuffer_restarts_ids buffer q :
  let q' := state_of (adoptBuffer buffer q) in
  (∀ eventID, removeEvent eventID q' = (CEvent.default, q', [])) ∧
  (∀ event, result (saveEvent event q') = 0) ∧
  m_timerQueue q' = m_timerQueue q ∧
  m_timers q' = m_timers q ∧
  m_time q' = m_time q ∧
  m_handlers q' = m_handlers q ∧
  m_typeMap q' = m_typeMap q ∧
  m_nextType q' = m_nextType q.
Proof.
  intros q'. subst q'. rewrite adoptBuffer_unfold, state_of_mk.
  split; [|split; [|done]].
  - intros eventID. rewrite removeEvent_unfold.
    cbn [m_events set_buffer set_events set_oldEventIDs].
    by rewrite lookup_empty.
  - intros event. rewrite saveEvent_unfold.
    cbn [m_events m_oldEventIDs set_buffer set_events set_oldEventIDs last].
    reflexivity.
Qed.

(** ** Dequeue: the verdicts of the buffer *)

Lemma getEvent_pass_buffered timeout timer now_sweep now event q :
  IEventQueueBuffer.isEmpty (m_buffer q) = false →
  getEvent_pass timeout timer now_sweep now event q =
  let got := IEventQueueBuffer.getEvent event (m_buffer q) in
  let q1 := set_buffer (λ _, got.2) q in
  match got.1.1.1 with
  | IEventQueueBuffer.kNone =>
      ((if Qltb timeout 0 || Qle_bool timeout (CStopwatch.getTime now timer)
        then Retry else Return false, got.1.1.2), q1, [])
  | IEventQueueBuffer.kSystem => ((Return true, got.1.1.2), q1, [])
  | IEventQueueBuffer.kUser =>
      ((Return true, result (removeEvent got.1.2 q1)),
       state_of (removeEvent got.1.2 q1), [])
  end.
Proof.
  intros Hne. unfold getEvent_pass. unfold bind at 1. unfold gets at 1.
  rewrite Hne. unfold bind at 1. unfold call_buffer. cbv zeta.
  destruct (IEventQueueBuffer.getEvent event (m_buffer q))
    as [[[verdict event'] dataID] b'].
  cbn [fst snd]. destruct verdict.
  - by destruct (_ || _).
  - reflexivity.
  - unfold bind, ret. pose proof (removeEvent_trace dataID (set_buffer (λ _, b') q)) as Htr.
    unfold result, state_of, trace in *.
    destruct (removeEvent dataID (set_buffer (λ _, b') q)) as [[e q2] w2].
    cbn [fst snd] in *. by subst w2.
Qed.

(** X8 (System and User verdicts).  When the buffer is not empty, getEvent
    returns true on a System verdict with the event the buffer filled in,
    the event-data table being untouched; on a User verdict it returns true
    with the event stored under the id the buffer gave, which it takes out
    of the table and puts on the free-id stack.  When nothing is stored
    under that id, it still returns true, with the default event (of type
    Unknown), and the table is unchanged. *)
Theorem getEvent_pass_verdicts timeout timer now_sweep now event q :
  IEventQueueBuffer.isEmpty (m_buffer q) = false →
  let got := IEventQueueBuffer.getEvent event (m_buffer q) in
  let q1 := set_buffer (λ _, got.2) q in
  let r := getEvent_pass timeout timer now_sweep now event q in
  (got.1.1.1 = IEventQueueBuffer.kSystem →
   r = ((Return true, got.1.1.2), q1, [])) ∧
  (got.1.1.1 = IEventQueueBuffer.kUser →
   (∀ stored, m_events q !! got.1.2 = Some stored →
      r = ((Return true, stored),
           set_oldEventIDs (λ ids, ids ++ [got.1.2])
             (set_events (delete got.1.2) q1), [])) ∧
   (m_events q !! got.1.2 = None →
      r = ((Return true, CEvent.default), q1, []))).
Proof.
  intros Hne got q1 r. subst r.
  rewrite (getEvent_pass_buffered _ _ _ _ _ _ Hne). cbv zeta. fold got q1.
  split.
  - intros Hv. by rewrite Hv.
  - intros Hv. rewrite Hv. rewrite removeEvent_unfold.
    change (m_events q1) with (m_events q). split.
    + intros stored Hs. by rewrite Hs.
    + intros Hs. by rewrite Hs.
Qed.

Lemma getEvent_pass_verdicts_witness :
  let system := CEvent.make CEvent.kSystem 9 99 in
  let user := CEvent.make 5 7 42 in
  let script := [(IEventQueueBuffer.kSystem, system, 0);
                 (IEventQueueBuffer.kUser, CEvent.default, 0);
                 (IEventQueueBuffer.kUser, CEvent.default, 0)] in
  let q0 := state_of (adoptBuffer (Some (CScriptedBuffer.make script 1))
                        (CEventQueue.new 0 100)) in
  let q := state_of (addEvent user q0) in
  let timer := CStopwatch.start 0 in
  let r1 := getEvent_pass 1 timer 0 0 CEvent.default q in
  let r2 := getEvent_pass 1 timer 0 0 CEvent.default (state_of r1) in
  let r3 := getEvent_pass 1 timer 0 0 CEvent.default (state_of r2) in
  result r1 = (Return true, system) ∧
  result r2 = (Return true, user) ∧
  result r3 = (Return true, CEvent.default).
Proof.
  intros system user script q0 q timer r1 r2 r3.
  assert (H1 : r1 = ((Return true, system), state_of r1, [])).
  { apply (proj1 (getEvent_pass_verdicts 1 timer 0 0 CEvent.default q eq_refl)).
    reflexivity. }
  assert (H2 : result r2 = (Return true, user)).
  { subst r2.
    rewrite (proj1 (proj2 (getEvent_pass_verdicts 1 timer 0 0 CEvent.default
                             (state_of r1) eq_refl) eq_refl) user eq_refl).
    reflexivity. }
  assert (H3 : result r3 = (Return true, CEvent.default)).
  { subst r3.
    rewrite (proj2 (proj2 (getEvent_pass_verdicts 1 timer 0 0 CEvent.default
                             (state_of r2) eq_refl) eq_refl) eq_refl).
    reflexivity. }
  rewrite H1 at 1. split; [reflexivity|]. split; [exact H2 | exact H3].
Defined.

(** X9 (buffered events come before timers).  When the buffer is not
    empty, getEvent takes the buffer's event and does not look at the
    timers at all, whatever the verdict: the timer queue, the clock and the
    Timer-event payload are left as they were, even if a timer is due, and
    nothing outside the queue is called. *)
Theorem getEvent_pass_skips_timers timeout timer now_sweep now event q :
  IEventQueueBuffer.isEmpty (m_buffer q) = false →
  let r := getEvent_pass timeout timer now_sweep now event q in
  m_timerQueue (state_of r) = m_timerQueue q ∧
  m_time (state_of r) = m_time q ∧
  m_timerEvent (state_of r) = m_timerEvent q ∧
  m_timers (state_of r) = m_timers q ∧
  m_buffer (state_of r) = (IEventQueueBuffer.getEvent event (m_buffer q)).2 ∧
  trace r = [].
Proof.
  intros Hne r. subst r.
  rewrite (getEvent_pass_buffered _ _ _ _ _ _ Hne). cbv zeta.
  destruct ((IEventQueueBuffer.getEvent event (m_buffer q)).1.1.1);
    rewrite ?state_of_mk, ?trace_mk; try done.
  rewrite removeEvent_unfold.
  cbn [m_events set_buffer]. by destruct (m_events q !! _).
Qed.

Lemma getEvent_pass_skips_timers_witness :
  let none := (IEventQueueBuffer.kNone, CEvent.default, 0) in
  let q0 := state_of (adoptBuffer (Some (CScriptedBuffer.make [none] 0))
                        (CEventQueue.new 0 100)) in
  let q := state_of (newTimer 0 (1 # 20) 7 q0) in
  let r := getEvent_pass 1 (CStopwatch.start 0) 5 5 CEvent.default q in
  (result (hasTimerExpired 5 CEvent.default q)).1 = true ∧
  m_timerQueue (state_of r) = m_timerQueue q ∧
  m_time (state_of r) = m_time q.
Proof.
  intros none q0 q r. split; [reflexivity|].
  destruct (getEvent_pass_skips_timers 1 (CStopwatch.start 0) 5 5
              CEvent.default q eq_refl) as (H1 & H2 & _).
  split; [exact H1 | exact H2].
Defined.

(** ** Dequeue: waiting *)

Lemma hasTimerExpired_idle now event q :
  (result (hasTimerExpired now event q)).1 = false →
  hasTimerExpired now event q
    = ((false, event), state_of (hasTimerExpired now event q), []) ∧
  ∀ first others,
    m_timerQueue (state_of (hasTimerExpired now event q)) = first :: others →
    (0 < CTimer.m_time first)%Q.
Proof.
  rewrite hasTimerExpired_unfold.
  destruct (m_timerQueue q) as [|x others] eqn:Hqueue.
  { intros _. rewrite state_of_mk. split; [reflexivity|].
    intros first others'. by rewrite Hqueue. }
  cbv zeta. destruct (Qltb 0 _) eqn:Hlt; [|by rewrite result_mk].
  intros _. rewrite state_of_mk. split; [reflexivity|].
  intros first others'. cbn [m_timerQueue set_timerQueue set_time].
  rewrite Hqueue. cbn [map]. intros [= <- _]. by apply Qltb_lt.
Qed.

(** X10 (how long getEvent waits).  When the buffer is empty and no timer
    has expired: with a non-negative timeout that has elapsed getEvent
    returns false; otherwise it waits on the buffer once and goes round
    the loop.  The wait is infinite (-1) only when the timeout is infinite
    and there is no timer; in every other case it is positive, it is at
    most the time left of a finite timeout, and it is at most the time
    until the next timer is due. *)
Theorem getEvent_pass_wait timeout timer now_sweep now event q :
  IEventQueueBuffer.isEmpty (m_buffer q) = true →
  (result (hasTimerExpired now_sweep event q)).1 = false →
  let q1 := state_of (hasTimerExpired now_sweep event q) in
  let elapsed := CStopwatch.getTime now timer in
  let r := getEvent_pass timeout timer now_sweep now event q in
  ((0 <= timeout ∧ timeout <= elapsed)%Q → r = ((Return false, event), q1, [])) ∧
  ((timeout < 0 ∨ elapsed < timeout)%Q →
   ∃ w : Q,
     r = ((Retry, event), set_buffer (IEventQueueBuffer.waitForEvent w) q1, []) ∧
     ((w = (-1)%Q ∧ (timeout < 0)%Q ∧ m_timerQueue q1 = []) ∨ (0 < w)%Q) ∧
     ((0 <= timeout)%Q → (w <= timeout - elapsed)%Q) ∧
     (∀ first others, m_timerQueue q1 = first :: others →
        (w <= CTimer.m_time first)%Q)).
Proof.
  intros Hempty Hidle q1 elapsed r.
  destruct (hasTimerExpired_idle now_sweep event q Hidle) as [Hsweep Hhead].
  fold q1 in Hsweep, Hhead.
  assert (Hr : r =
    if Qle_bool 0 timeout && Qle_bool (timeout - elapsed) 0
    then ((Return false, event), q1, [])
    else ((Retry, event),
          set_buffer (IEventQueueBuffer.waitForEvent
            (if Qltb timeout 0
                || (Qle_bool 0 (result (getNextTimerTimeout q1))
                    && Qltb (result (getNextTimerTimeout q1)) (timeout - elapsed))
             then result (getNextTimerTimeout q1) else (timeout - elapsed)%Q)) q1,
          [])).
  { subst r. unfold getEvent_pass. unfold bind at 1. unfold gets at 1.
    rewrite Hempty. unfold bind at 1. rewrite Hsweep. cbn [fst snd].
    fold elapsed. destruct (_ && _); [reflexivity|].
    unfold bind at 1. rewrite getNextTimerTimeout_unfold, result_mk.
    reflexivity. }
  rewrite Hr. clear Hr. split.
  - intros [Hpos Hpast].
    assert (H1 : Qle_bool 0 timeout = true) by by apply Qle_bool_iff.
    assert (H2 : Qle_bool (timeout - elapsed) 0 = true)
      by (apply Qle_bool_iff; lra).
    by rewrite H1, H2.
  - intros Hwait.
    assert (Hguard : Qle_bool 0 timeout && Qle_bool (timeout - elapsed) 0 = false).
    { apply andb_false_iff. destruct Hwait as [Hneg|Hleft].
      - left. apply Qle_bool_gt. exact Hneg.
      - right. apply Qle_bool_gt. lra. }
    rewrite Hguard. eexists. split; [reflexivity|].
    rewrite getNextTimerTimeout_unfold, result_mk.
    destruct (m_timerQueue q1) as [|first others] eqn:Hqueue.
    + destruct (Qltb timeout 0) eqn:Hneg; cbn [orb andb].
      * apply Qltb_lt in Hneg. split; [left; done|]. split; [lra|done].
      * apply Qltb_ge in Hneg.
        change (Qle_bool 0 (-1)) with false. cbn [andb].
        destruct Hwait as [Hlt|Hleft]; [lra|].
        split; [right; lra|]. split; [lra|done].
    + specialize (Hhead first others eq_refl).
      apply Qle_bool_gt in Hhead as Hb. rewrite Hb.
      assert (Hnn : Qle_bool 0 (CTimer.m_time first) = true)
        by (apply Qle_bool_iff; lra).
      rewrite Hnn. cbn [andb].
      destruct (Qltb timeout 0) eqn:Hneg; cbn [orb].
      * apply Qltb_lt in Hneg. split; [right; exact Hhead|].
        split; [lra|]. intros ? ? [= <- _]. lra.
      * apply Qltb_ge in Hneg.
        destruct Hwait as [Hlt|Hleft]; [lra|].
        destruct (Qltb (CTimer.m_time first) (timeout - elapsed)) eqn:Hsooner.
        -- apply Qltb_lt in Hsooner. split; [right; exact Hhead|].
           split; [lra|]. intros ? ? [= <- _]. lra.
        -- apply Qltb_ge in Hsooner. split; [right; lra|].
           split; [lra|]. intros ? ? [= <- _]. exact Hsooner.
Qed.

Lemma getEvent_pass_wait_witness :
  let q := state_of (newTimer 0 (1 # 20) 7 (CEventQueue.new 0 100)) in
  let timer := CStopwatch.start 0 in
  let q1 := state_of (hasTimerExpired 0 CEvent.default q) in
  getEvent_pass 1 timer 0 2 CEvent.default q = ((Return false, CEvent.default), q1, []) ∧
  ∃ w : Q,
    getEvent_pass 1 timer 0 0 CEvent.default q
      = ((Retry, CEvent.default),
         set_buffer (IEventQueueBuffer.waitForEvent w) q1, []) ∧
    (w <= 1 # 20)%Q.
Proof.
  intros q timer q1. split.
  - apply (proj1 (getEvent_pass_wait 1 timer 0 2 CEvent.default q eq_refl eq_refl)).
    split; [discriminate | vm_compute; discriminate].
  - destruct (proj2 (getEvent_pass_wait 1 timer 0 0 CEvent.default q eq_refl eq_refl))
      as (w & Hr & _ & _ & Hnext).
    { right. reflexivity. }
    exists w. split; [exact Hr|].
    eapply Qle_trans; [exact (Hnext _ _ eq_refl)|]. vm_compute. discriminate.
Defined.

(** X11 (a due timer is delivered at once).  When the buffer is empty and
    isEmpty is false, a timer is due; if the clock has not gone backwards,
    getEvent then returns true with the Timer event of the first record of
    the timer queue, without waiting on the buffer or asking it for an
    event. *)
Theorem getEvent_pass_due_timer timeout timer now_sweep now event q :
  IEventQueueBuffer.isEmpty (m_buffer q) = true →
  result (isEmpty q) = false →
  (0 <= CStopwatch.getTime now_sweep (m_time q))%Q →
  let r := getEvent_pass timeout timer now_sweep now event q in
  ∃ first others,
    m_timerQueue q = first :: others ∧
    result r = (Return true,
                CEvent.make CEvent.kTimer (CTimer.m_target first) (addr_m_timerEvent q)) ∧
    CTimerEvent.m_timer (m_timerEvent (state_of r)) = CTimer.m_timer first ∧
    m_buffer (state_of r) = m_buffer q ∧
    trace r = [].
Proof.
  intros Hempty Hdue Hclock r.
  rewrite isEmpty_unfold, result_mk, Hempty, getNextTimerTimeout_unfold,
    result_mk in Hdue.
  cbn [andb] in Hdue. apply negb_false_iff, Qeq_bool_iff in Hdue.
  destruct (m_timerQueue q) as [|first others] eqn:Hqueue;
    [by apply Qeq_bool_iff in Hdue|].
  assert (Hfirst : (CTimer.m_time first <= 0)%Q).
  { destruct (Qle_bool (CTimer.m_time first) 0) eqn:Hle.
    - by apply Qle_bool_iff.
    - rewrite Hdue. apply Qle_refl. }
  exists first, others. split; [reflexivity|].
  assert (Hfire : Qltb 0 (CTimer.m_time
            (CTimer.sub (CStopwatch.getTime now_sweep (m_time q)) first)) = false).
  { apply Qltb_ge. unfold CTimer.sub, CTimer.with_time. cbn [CTimer.m_time]. lra. }
  assert (Hr : r =
    ((Return true,
      CEvent.make CEvent.kTimer (CTimer.m_target first) (addr_m_timerEvent q)),
     state_of (hasTimerExpired now_sweep event q), [])).
  { subst r. unfold getEvent_pass. unfold bind at 1. unfold gets at 1.
    rewrite Hempty. unfold bind.
    rewrite hasTimerExpired_unfold, Hqueue. cbv zeta.
    rewrite Hfire. reflexivity. }
  rewrite Hr, result_mk, state_of_mk, trace_mk.
  rewrite hasTimerExpired_unfold, Hqueue. cbv zeta. rewrite Hfire, state_of_mk.
  cbn [m_timerEvent m_buffer set_timerQueue set_timerEvent set_time].
  done.
Qed.

Lemma getEvent_pass_due_timer_witness :
  let q := state_of (hasTimerExpired (1 # 10) CEvent.default
             (state_of (newTimer 0 (1 # 20) 7
                (state_of (newTimer 0 (1 # 40) 8 (CEventQueue.new 0 100)))))) in
  result (isEmpty q) = false ∧
  result (getEvent_pass 1 (CStopwatch.start 0) (1 # 10) (1 # 10) CEvent.default q)
    = (Return true, CEvent.make CEvent.kTimer 7 100).
Proof.
  intros q. split; [reflexivity|].
  destruct (getEvent_pass_due_timer 1 (CStopwatch.start 0) (1 # 10) (1 # 10)
              CEvent.default q eq_refl eq_refl)
    as (first & others & Hqueue & Hres & _).
  { vm_compute. discriminate. }
  rewrite Hres. injection Hqueue as <- _. reflexivity.
Defined.

(** ** Creating timers *)

Lemma newTimer_unfold now duration target q :
  newTimer now duration target q =
  let made := IEventQueueBuffer.newTimer duration false (m_buffer q) in
  (made.1,
   set_timerQueue (CPriorityQueue.push
       (CTimer.make made.1 duration
          (duration + CStopwatch.getTime now (m_time q))%Q
          (if target =? NULL then made.1 else target) false))
     (set_timers (λ s, {[made.1]} ∪ s) (set_buffer (λ _, made.2) q)),
   []).
Proof. reflexivity. Qed.

Lemma newOneShotTimer_unfold now duration target q :
  newOneShotTimer now duration target q =
  let made := IEventQueueBuffer.newTimer duration true (m_buffer q) in
  (made.1,
   set_timerQueue (CPriorityQueue.push
       (CTimer.make made.1 duration
          (duration + CStopwatch.getTime now (m_time q))%Q
          (if target =? NULL then made.1 else target) true))
     (set_timers (λ s, {[made.1]} ∪ s) (set_buffer (λ _, made.2) q)),
   []).
Proof. reflexivity. Qed.




(** ** Periodic timers *)

(** X13 (a periodic timer fires again one period after it fired).  For a
    queue whose only record is a periodic timer that is due, the sweep
    fires it, and a later sweep fires it again exactly when at least its
    period has gone by since the sweep that fired it: the time by which
    the first firing was late is not carried over. *)
Theorem periodic_timer_refires now1 now2 event event' q x :
  m_timerQueue q = [x] →
  CTimer.m_oneShot x = false →
  (CTimer.m_time x <= CStopwatch.getTime now1 (m_time q))%Q →
  let r1 := hasTimerExpired now1 event q in
  let r2 := hasTimerExpired now2 event' (state_of r1) in
  (result r1).1 = true ∧
  queued_timers (state_of r1) = [CTimer.m_timer x] ∧
  ((result r2).1 = true ↔ (CTimer.m_timeout x <= now2 - now1)%Q).
Proof.
  intros Hqueue Hper Hdue r1 r2.
  set (timer := CTimer.sub (CStopwatch.getTime now1 (m_time q)) x).
  assert (Hr1 : r1 = _)
    by exact (hasTimerExpired_cases now1 event q timer [] ltac:(by rewrite Hqueue)).
  cbv zeta in Hr1.
  assert (Hfire : Qltb 0 (CTimer.m_time timer) = false).
  { apply Qltb_ge. subst timer. unfold CTimer.sub, CTimer.with_time.
    cbn [CTimer.m_time]. lra. }
  rewrite Hfire in Hr1.
  change (CTimer.m_oneShot timer) with (CTimer.m_oneShot x) in Hr1.
  rewrite Hper in Hr1. cbn [CPriorityQueue.push] in Hr1.
  subst r2. rewrite Hr1, result_mk, state_of_mk.
  split; [reflexivity|]. split; [reflexivity|].
  set (q1 := set_timerQueue _ _).
  set (timer2 := CTimer.sub (CStopwatch.getTime now2 (m_time q1)) (CTimer.reset timer)).
  rewrite (hasTimerExpired_cases now2 event' q1 timer2 [] eq_refl).
  assert (Htime : (CTimer.m_time timer2 == CTimer.m_timeout x - (now2 - now1))%Q).
  { subst timer2 q1 timer.
    unfold CTimer.sub, CTimer.reset, CTimer.with_time, CStopwatch.getTime,
      CStopwatch.reset.
    cbn [CTimer.m_time CTimer.m_timeout m_time set_timerQueue set_timerEvent
         set_time CStopwatch.m_mark].
    ring. }
  destruct (Qltb 0 (CTimer.m_time timer2)) eqn:Hlt; rewrite result_mk; cbn [fst].
  - apply Qltb_lt in Hlt. rewrite Htime in Hlt. split; [discriminate|]. lra.
  - apply Qltb_ge in Hlt. rewrite Htime in Hlt. split; [lra|done].
Qed.

Lemma periodic_timer_refires_witness :
  let q := state_of (newTimer 0 (1 # 20) 7 (CEventQueue.new 0 100)) in
  let r1 := hasTimerExpired (1 # 8) CEvent.default q in
  (result r1).1 = true ∧
  (result (hasTimerExpired (3 # 20) CEvent.default (state_of r1))).1 = false ∧
  (result (hasTimerExpired (7 # 40) CEvent.default (state_of r1))).1 = true.
Proof.
  intros q r1.
  assert (Hdue : ((1 # 20) + (0 - 0) <= (1 # 8) - 0)%Q) by (vm_compute; discriminate).
  split; [|split].
  - exact (proj1 (periodic_timer_refires (1 # 8) 0 CEvent.default CEvent.default
                    q _ eq_refl eq_refl Hdue)).
  - destruct (periodic_timer_refires (1 # 8) (3 # 20) CEvent.default CEvent.default
                q _ eq_refl eq_refl Hdue) as (_ & _ & Hiff).
    fold r1 in Hiff.
    destruct (result (hasTimerExpired (3 # 20) CEvent.default (state_of r1))).1;
      [|reflexivity].
    exfalso. apply (proj1 Hiff eq_refl). reflexivity.
  - destruct (periodic_timer_refires (1 # 8) (7 # 40) CEvent.default CEvent.default
                q _ eq_refl eq_refl Hdue) as (_ & _ & Hiff).
    apply (proj2 Hiff). vm_compute. discriminate.
Defined.

(** ** The count of a delivered Timer event *)

(** X14 (a delivered Timer event counts at least one period).  When the
    sweep returns true, the record it fired has a remaining time of at most
    0, and for a positive timeout whose quotient fits [UInt32] the count
    in the payload is at least 1; together with the count, the payload
    names the timer of that record. *)
Theorem delivered_timer_count_positive now event q timer rest :
  map (CTimer.sub (CStopwatch.getTime now (m_time q))) (m_timerQueue q)
    = timer :: rest →
  (result (hasTimerExpired now event q)).1 = true →
  (0 < CTimer.m_timeout timer)%Q →
  Qfloor (periods timer) < 2 ^ 32 →
  let payload := m_timerEvent (state_of (hasTimerExpired now event q)) in
  (CTimer.m_time timer <= 0)%Q ∧
  1 ≤ CTimerEvent.m_count payload ∧
  CTimerEvent.m_timer payload = CTimer.m_timer timer.
Proof.
  intros Hswept Hfired Hpos Hfits payload. subst payload. revert Hfired.
  rewrite (hasTimerExpired_cases now event q timer rest Hswept).
  destruct (Qltb 0 (CTimer.m_time timer)) eqn:Hlt;
    rewrite result_mk, state_of_mk; [discriminate|]. intros _.
  apply Qltb_ge in Hlt. split; [exact Hlt|].
  cbn [m_timerEvent set_timerQueue set_timerEvent].
  rewrite (fillEvent_due timer _ Hlt). cbn [CTimerEvent.m_count CTimerEvent.m_timer].
  split; [|reflexivity].
  rewrite static_cast_periods by done.
  pose proof (periods_nonneg timer Hpos Hlt) as Hone.
  apply Qfloor_resp_le in Hone. exact Hone.
Qed.

Lemma delivered_timer_count_positive_witness :
  let q := state_of (newTimer 0 (1 # 20) 7 (CEventQueue.new 0 100)) in
  let payload := m_timerEvent (state_of (hasTimerExpired (1 # 8) CEvent.default q)) in
  1 ≤ CTimerEvent.m_count payload ∧ CTimerEvent.m_timer payload = 1.
Proof.
  intros q payload.
  destruct (delivered_timer_count_positive (1 # 8) CEvent.default q _ _ eq_refl)
    as (_ & Hcount & Htimer); [reflexivity | reflexivity | reflexivity |].
  split; [exact Hcount | exact Htimer].
Defined.

(** ** The next timeout *)

Lemma sorted_head_least first others x :
  queue_sorted (first :: others) → x ∈ first :: others → time_le first x.
Proof.
  intros Hsorted Hx. apply StronglySorted_inv in Hsorted as [_ Hall].
  apply elem_of_cons in Hx as [->|Hx]; [apply Qle_refl|].
  by eapply Forall_forall in Hall.
Qed.

(** X15 (getNextTimerTimeout is the time until the earliest timer).  In
    every reachable state: without timers the result is -1; with timers
    it is 0 exactly when some record has a remaining time of at most 0,
    and otherwise it is the smallest remaining time of all the records. *)
Theorem getNextTimerTimeout_earliest q A :
  reachable q A →
  let t := result (getNextTimerTimeout q) in
  (m_timerQueue q = [] → t = (-1)%Q) ∧
  (m_timerQueue q ≠ [] →
   (0 <= t)%Q ∧
   (t = 0%Q ↔ ∃ x, x ∈ m_timerQueue q ∧ (CTimer.m_time x <= 0)%Q) ∧
   ((0 < t)%Q →
    (∃ x, x ∈ m_timerQueue q ∧ CTimer.m_time x = t) ∧
    ∀ x, x ∈ m_timerQueue q → (t <= CTimer.m_time x)%Q)).
Proof.
  intros Hq t. apply reachable_sorted in Hq. subst t.
  rewrite getNextTimerTimeout_unfold, result_mk.
  destruct (m_timerQueue q) as [|first others] eqn:Hqueue; [done|].
  split; [done|]. intros _.
  destruct (Qle_bool (CTimer.m_time first) 0) eqn:Hle.
  - apply Qle_bool_iff in Hle. split; [apply Qle_refl|]. split.
    + split; [|done]. intros _. exists first. split; [apply elem_of_cons; by left|done].
    + intros Hpos. by apply Qlt_irrefl in Hpos.
  - apply Qle_bool_gt in Hle. split; [lra|]. split.
    + split.
      * intros Hzero. rewrite Hzero in Hle. by apply Qlt_irrefl in Hle.
      * intros (x & Hx & Hdue).
        pose proof (sorted_head_least first others x Hq Hx) as Hleast.
        unfold time_le in Hleast. lra.
    + intros _. split.
      * exists first. split; [apply elem_of_cons; by left|done].
      * intros x Hx. exact (sorted_head_least first others x Hq Hx).
Qed.

Lemma getNextTimerTimeout_earliest_witness :
  let q := state_of (newTimer 0 (1 # 40) 8
             (state_of (newTimer 0 (1 # 20) 7 (CEventQueue.new 0 100)))) in
  reachable q ∅ ∧
  result (getNextTimerTimeout (CEventQueue.new 0 100)) = (-1)%Q ∧
  ∀ x, x ∈ m_timerQueue q → (result (getNextTimerTimeout q) <= CTimer.m_time x)%Q.
Proof.
  intros q.
  assert (Hq : reachable q ∅).
  { apply (reach_call _ ∅ (call_newTimer 0 (1 # 40) 8)).
    apply (reach_call _ ∅ (call_newTimer 0 (1 # 20) 7)).
    apply reach_new. }
  split; [exact Hq|]. split.
  - exact (proj1 (getNextTimerTimeout_earliest _ ∅ (reach_new 0 100)) eq_refl).
  - destruct (proj2 (getNextTimerTimeout_earliest q ∅ Hq)) as (_ & _ & Hpos).
    { discriminate. }
    apply Hpos. reflexivity.
Defined.

(** X16 (isEmpty).  In every reachable state isEmpty is true exactly when
    the buffer is empty and every record of the timer queue has a positive
    remaining time. *)
Theorem isEmpty_no_event_no_due_timer q A :
  reachable q A →
  result (isEmpty q) = true ↔
  IEventQueueBuffer.isEmpty (m_buffer q) = true ∧
  ∀ x, x ∈ m_timerQueue q → (0 < CTimer.m_time x)%Q.
Proof.
  intros Hq. apply reachable_sorted in Hq.
  rewrite isEmpty_unfold, getNextTimerTimeout_unfold, !result_mk.
  rewrite andb_true_iff, negb_true_iff.
  destruct (m_timerQueue q) as [|first others] eqn:Hqueue.
  { split; intros [Hb _]; (split; [exact Hb|]); [|reflexivity].
    intros x Hx. by apply elem_of_nil in Hx. }
  destruct (Qle_bool (CTimer.m_time first) 0) eqn:Hle.
  - apply Qle_bool_iff in Hle. split.
    + intros [_ Hne]. discriminate Hne.
    + intros [_ Hall]. specialize (Hall first ltac:(apply elem_of_cons; by left)). lra.
  - apply Qle_bool_gt in Hle. split.
    + intros [Hb _]. split; [exact Hb|]. intros x Hx.
      pose proof (sorted_head_least first others x Hq Hx) as Hleast.
      unfold time_le in Hleast. lra.
    + intros [Hb _]. split; [exact Hb|].
      apply not_true_iff_false. intros Heq. apply Qeq_bool_iff in Heq. lra.
Qed.

Lemma isEmpty_no_event_no_due_timer_witness :
  let q := state_of (newTimer 0 (1 # 20) 7 (CEventQueue.new 0 100)) in
  reachable q ∅ ∧ result (isEmpty q) = true ∧
  ∀ x, x ∈ m_timerQueue q → (0 < CTimer.m_time x)%Q.
Proof.
  intros q.
  assert (Hq : reachable q ∅)
    by exact (reach_call _ ∅ (call_newTimer 0 (1 # 20) 7) (reach_new 0 100)).
  split; [exact Hq|]. split; [reflexivity|].
  exact (proj2 (proj1 (isEmpty_no_event_no_due_timer q ∅ Hq) eq_refl)).
Defined.

(** ** Sweeps that fire nothing *)











(** ** Deleting timers *)

Lemma find_timer_None timer c index :
  find_timer timer c index = None → timer ∉ map CTimer.getTimer c.
Proof.
  revert index. induction c as [|x c IH]; intros index; cbn [find_timer map].
  - intros _. apply not_elem_of_nil.
  - destruct (Z.eqb_spec (CTimer.getTimer x) timer) as [Heq|Hne]; [discriminate|].
    intros Hnone. apply IH in Hnone. apply not_elem_of_cons. split; [congruence|done].
Qed.

Lemma find_timer_Some timer c index i :
  find_timer timer c index = Some i →
  ∃ before x after,
    c = before ++ x :: after ∧ i = (index + length before)%nat ∧
    CTimer.getTimer x = timer ∧ timer ∉ map CTimer.getTimer before.
Proof.
  revert index. induction c as [|x c IH]; intros index; cbn [find_timer];
    [discriminate|].
  destruct (Z.eqb_spec (CTimer.getTimer x) timer) as [Heq|Hne].
  - intros [= <-]. exists [], x, c. cbn [length app map].
    repeat split; [lia | exact Heq | apply not_elem_of_nil].
  - intros Hfound. apply IH in Hfound as (before & y & after & -> & -> & Hy & Hnot).
    exists (x :: before), y, after. cbn [length app map].
    repeat split; [lia | exact Hy |].
    apply not_elem_of_cons. split; [congruence|done].
Qed.

(** X18 (deleteTimer).  deleteTimer takes the timer out of the set of
    known timers and tells the buffer to delete it, whether or not the
    timer has a record.  It removes from the timer queue the first record
    of that timer and no other record, keeping the order of the others; a
    queue without such a record is left as it is.  When no two records
    share a timer, the deleted timer has no record left and no later sweep
    brings one back. *)
Theorem deleteTimer_removes timer q :
  let q' := state_of (deleteTimer timer q) in
  m_timers q' = (m_timers q ∖ {[timer]}) ∧
  m_buffer q' = IEventQueueBuffer.deleteTimer timer (m_buffer q) ∧
  trace (deleteTimer timer q) = [] ∧
  (timer ∉ queued_timers q → m_timerQueue q' = m_timerQueue q) ∧
  (timer ∈ queued_timers q →
   ∃ before x after,
     m_timerQueue q = before ++ x :: after ∧
     CTimer.getTimer x = timer ∧
     (timer ∉ map CTimer.getTimer before) ∧
     m_timerQueue q' = before ++ after) ∧
  (NoDup (queued_timers q) →
   (timer ∉ queued_timers q') ∧
   ∀ nows event, timer ∉ queued_timers (sweeps nows event q')).
Proof.
  intros q'.
  assert (Hqueue : m_timerQueue q' =
    match find_timer timer (m_timerQueue q) 0%nat with
    | Some index => CPriorityQueue.erase index (m_timerQueue q)
    | None => m_timerQueue q
    end) by apply deleteTimer_timerQueue.
  assert (Hrest : m_timers q' = (m_timers q ∖ {[timer]}) ∧
                  m_buffer q' = IEventQueueBuffer.deleteTimer timer (m_buffer q) ∧
                  trace (deleteTimer timer q) = []).
  { subst q'. unfold deleteTimer. run_monad. cbn [fst snd].
    by destruct (find_timer timer (m_timerQueue q) 0). }
  destruct Hrest as (Hset & Hbuf & Htrace).
  split; [exact Hset|]. split; [exact Hbuf|]. split; [exact Htrace|].
  unfold queued_timers in *.
  destruct (find_timer timer (m_timerQueue q) 0) as [i|] eqn:Hfind.
  - apply find_timer_Some in Hfind as (before & x & after & Hq & -> & Hx & Hnot).
    assert (Hq' : m_timerQueue q' = before ++ after).
    { rewrite Hqueue, Hq. unfold CPriorityQueue.erase.
      rewrite Nat.add_0_l. apply delete_middle. }
    rewrite Hq', Hq.
    split; [|split].
    + intros Habsent. exfalso. apply Habsent. rewrite map_app. cbn [map].
      rewrite Hx. set_solver.
    + intros _. by exists before, x, after.
    + rewrite !map_app. cbn [map]. rewrite Hx. intros Hnd.
      apply NoDup_app in Hnd as (_ & Hdisj & Hnd).
      apply NoDup_cons in Hnd as [Hafter _].
      assert (Hgone : timer ∉ map CTimer.getTimer before ++ map CTimer.getTimer after).
      { intros Hin. apply elem_of_app in Hin as [Hin|Hin]; [by apply Hnot|done]. }
      split; [exact Hgone|].
      intros nows event. apply sweeps_queued_timers. unfold queued_timers.
      by rewrite Hq', map_app.
  - apply find_timer_None in Hfind. rewrite Hqueue.
    split; [done|]. split; [done|]. intros _. split; [exact Hfind|].
    intros nows event. apply sweeps_queued_timers. unfold queued_timers.
    by rewrite Hqueue.
Qed.

Lemma deleteTimer_removes_witness :
  let q := state_of (newOneShotTimer 0 (1 # 10) 7
             (state_of (newTimer 0 (1 # 20) 8 (CEventQueue.new 0 100)))) in
  let q' := state_of (deleteTimer 1 q) in
  queued_timers q = [1; 2] ∧
  queued_timers q' = [2] ∧
  m_timerQueue (state_of (deleteTimer 9 q)) = m_timerQueue q ∧
  ∀ nows event, 1 ∉ queued_timers (sweeps nows event q').
Proof.
  intros q q'. split; [reflexivity|].
  destruct (deleteTimer_removes 1 q) as (_ & _ & _ & _ & Hin & Hnodup).
  destruct (deleteTimer_removes 9 q) as (_ & _ & _ & Hout & _).
  split; [reflexivity|]. split.
  - apply Hout. vm_compute. intros Hin9.
    repeat (apply elem_of_cons in Hin9 as [Hin9|Hin9]; [discriminate|]).
    by apply elem_of_nil in Hin9.
  - apply Hnodup. vm_compute.
    repeat (constructor; [intros Hin1;
      repeat (apply elem_of_cons in Hin1 as [Hin1|Hin1]; [discriminate|]);
      by apply elem_of_nil in Hin1|]).
    constructor.
Defined.

(** ** What a sweep does to the set of records *)

(** X19 (a sweep removes at most a fired one-shot record).  An expiry
    sweep keeps the records of the timer queue, up to their order: when it
    returns false, or fires a periodic timer, the queue holds records of
    the same timers as before; when it fires a one-shot timer, it holds
    those of the other records.  The set of known timers is never changed
    by a sweep, so a fired one-shot timer stays known until deleteTimer. *)
Theorem sweep_keeps_records now event q :
  let r := hasTimerExpired now event q in
  m_timers (state_of r) = m_timers q ∧
  m_buffer (state_of r) = m_buffer q ∧
  (queued_timers (state_of r) ≡ₚ queued_timers q ∨
   (∃ first others,
      m_timerQueue q = first :: others ∧
      CTimer.m_oneShot first = true ∧
      (result r).1 = true ∧
      queued_timers (state_of r) = map CTimer.getTimer others)).
Proof.
  intros r. subst r. rewrite hasTimerExpired_unfold. unfold queued_timers.
  destruct (m_timerQueue q) as [|first others] eqn:Hqueue.
  { rewrite state_of_mk, Hqueue. split; [done|]. split; [done|]. by left. }
  cbv zeta. set (time := CStopwatch.getTime now (m_time q)).
  assert (Hsub : ∀ c, map CTimer.getTimer (map (CTimer.sub time) c)
                      = map CTimer.getTimer c).
  { intros c. rewrite map_map. reflexivity. }
  destruct (Qltb 0 _); rewrite state_of_mk, ?result_mk;
    cbn [m_timers m_buffer m_timerQueue set_timerQueue set_timerEvent set_time];
    rewrite Hqueue; (split; [done|]); (split; [done|]).
  - left. by rewrite Hsub.
  - cbn [map CPriorityQueue.pop tail].
    change (CTimer.m_oneShot (CTimer.sub time first)) with (CTimer.m_oneShot first).
    destruct (CTimer.m_oneShot first) eqn:Hone.
    + right. exists first, others. by rewrite Hsub.
    + left. rewrite push_Permutation. cbn [map]. by rewrite Hsub.
Qed.

(** ** Handlers *)

Lemma doAdoptHandler_unfold type target handler q :
  doAdoptHandler type target handler q =
  (tt, set_handlers <[(type, target) := handler]> q,
   match m_handlers q !! (type, target) with
   | Some old => if old =? NULL then [] else [delete_job old]
   | None => []
   end).
Proof.
  unfold doAdoptHandler, delete_ptr, bind, gets, modify. cbn [fst snd].
  destruct (m_handlers q !! (type, target)) as [old|]; cbn [default from_option id].
  - by destruct (old =? NULL).
  - reflexivity.
Qed.

Lemma doOrphanHandler_unfold type target q :
  doOrphanHandler type target q =
  match m_handlers q !! (type, target) with
  | Some handler => (handler, set_handlers (delete (type, target)) q, [])
  | None => (NULL, q, [])
  end.
Proof.
  unfold doOrphanHandler, bind, gets, modify, ret. cbn [fst snd].
  by destruct (m_handlers q !! (type, target)).
Qed.


(** X20 (adopting, looking up and orphaning a handler).  After a handler
    has been adopted for a type and target, with or without a type (the
    wildcard is the type Unknown), getHandler returns it for that key and
    the entries of all other keys are as before.  Orphaning the key
    returns the handler without deleting it and takes the entry out, which
    restores the table when the key was new; orphaning the key again
    returns null and changes nothing. *)
Theorem adopt_then_orphan type target handler q :
  let q1 := state_of (doAdoptHandler type target handler q) in
  let orphaned := doOrphanHandler type target q1 in
  adoptHandler_type type target handler q = doAdoptHandler type target handler q ∧
  adoptHandler target handler q = doAdoptHandler CEvent.kUnknown target handler q ∧
  result (getHandler type target q1) = handler ∧
  (∀ key, key ≠ (type, target) → m_handlers q1 !! key = m_handlers q !! key) ∧
  result orphaned = handler ∧
  trace orphaned = [] ∧
  m_handlers (state_of orphaned) = delete (type, target) (m_handlers q) ∧
  (m_handlers q !! (type, target) = None →
   m_handlers (state_of orphaned) = m_handlers q) ∧
  doOrphanHandler type target (state_of orphaned) = (NULL, state_of orphaned, []).
Proof.
  intros q1 orphaned. subst orphaned q1.
  split; [reflexivity|]. split; [reflexivity|].
  rewrite (doAdoptHandler_unfold type target handler q), state_of_mk.
  rewrite getHandler_unfold, result_mk.
  rewrite (doOrphanHandler_unfold type target (set_handlers _ q)).
  cbn [m_handlers set_handlers]. rewrite lookup_insert_eq.
  rewrite result_mk, trace_mk, state_of_mk. cbn [m_handlers set_handlers].
  rewrite delete_insert_eq.
  split; [reflexivity|].
  split; [intros key Hkey; by rewrite lookup_insert_ne|].
  split; [reflexivity|]. split; [reflexivity|]. split; [reflexivity|].
  split; [intros Hnew; by apply delete_id|].
  rewrite doOrphanHandler_unfold. cbn [m_handlers set_handlers].
  by rewrite lookup_delete_eq.
Qed.

Lemma adopt_then_orphan_witness :
  let q := CEventQueue.new 0 100 in
  let q1 := state_of (doAdoptHandler 5 7 11 q) in
  m_handlers q !! (5, 7) = None ∧
  m_handlers (state_of (doOrphanHandler 5 7 q1)) = m_handlers q ∧
  m_handlers q1 !! (6, 7) = m_handlers q !! (6, 7).
Proof.
  intros q q1.
  destruct (adopt_then_orphan 5 7 11 q) as (_ & _ & _ & Hother & _ & _ & _ & Hnew & _).
  split; [reflexivity|]. split; [exact (Hnew eq_refl)|].
  apply Hother. discriminate.
Defined.




(** X22 (a wildcard handler serves its target only).  After
    adoptHandler(target, handler) with a non-null handler, an event for
    that target whose type has no handler of its own is dispatched to the
    handler, an event whose type has its own non-null handler still goes
    to that one, and for every other target getHandler and dispatchEvent
    answer as before. *)
Theorem wildcard_handler_serves_target target handler event q :
  handler ≠ NULL →
  let q1 := state_of (adoptHandler target handler q) in
  let type := CEvent.getType event in
  (CEvent.getTarget event = target →
   m_handlers q !! (type, target) = None →
   dispatchEvent event q1 = (true, q1, [run handler event])) ∧
  (CEvent.getTarget event = target → type ≠ CEvent.kUnknown →
   ∀ own, m_handlers q !! (type, target) = Some own → own ≠ NULL →
     dispatchEvent event q1 = (true, q1, [run own event])) ∧
  (CEvent.getTarget event ≠ target →
   result (getHandler type (CEvent.getTarget event) q1)
     = result (getHandler type (CEvent.getTarget event) q) ∧
   result (dispatchEvent event q1) = result (dispatchEvent event q) ∧
   trace (dispatchEvent event q1) = trace (dispatchEvent event q)).
Proof.
  intros Hh q1 type.
  assert (Hq1 : m_handlers q1 = <[(CEvent.kUnknown, target) := handler]> (m_handlers q)).
  { subst q1. unfold adoptHandler. by rewrite doAdoptHandler_unfold. }
  apply Z.eqb_neq in Hh as Hb.
  rewrite !dispatchEvent_unfold, !getHandler_unfold, !result_mk. cbv zeta.
  fold type. rewrite Hq1.
  split; [|split].
  - intros Htarget Hnone. rewrite Htarget.
    destruct (decide (type = CEvent.kUnknown)) as [->|Htype].
    + rewrite lookup_insert_eq. by rewrite Hb.
    + rewrite lookup_insert_ne by congruence. rewrite Hnone, lookup_insert_eq.
      cbn [default from_option id]. by rewrite Hb.
  - intros Htarget Htype own Hown Hnn. rewrite Htarget.
    rewrite lookup_insert_ne by congruence. rewrite Hown.
    apply Z.eqb_neq in Hnn. by rewrite Hnn.
  - intros Htarget.
    rewrite !lookup_insert_ne by congruence.
    set (job := match m_handlers q !! (type, CEvent.getTarget event) with
                | Some job => job
                | None => default NULL (m_handlers q !! (CEvent.kUnknown, CEvent.getTarget event))
                end).
    split; [reflexivity|]. by destruct (job =? NULL).
Qed.

Lemma wildcard_handler_serves_target_witness :
  let q := state_of (adoptHandler_type 5 7 11 (CEventQueue.new 0 100)) in
  let q1 := state_of (adoptHandler 7 22 q) in
  dispatchEvent (CEvent.make 6 7 43) q1 = (true, q1, [run 22 (CEvent.make 6 7 43)]) ∧
  dispatchEvent (CEvent.make 5 7 42) q1 = (true, q1, [run 11 (CEvent.make 5 7 42)]) ∧
  result (dispatchEvent (CEvent.make 6 8 44) q1) = false.
Proof.
  intros q q1. split; [|split].
  - apply (proj1 (wildcard_handler_serves_target 7 22 (CEvent.make 6 7 43) q
                    ltac:(discriminate))); reflexivity.
  - apply (proj1 (proj2 (wildcard_handler_serves_target 7 22 (CEvent.make 5 7 42) q
                           ltac:(discriminate))) eq_refl ltac:(discriminate) 11);
      [reflexivity | discriminate].
  - destruct (proj2 (proj2 (wildcard_handler_serves_target 7 22 (CEvent.make 6 8 44) q
                              ltac:(discriminate)))) as (_ & Hres & _).
    { discriminate. }
    subst q1. rewrite Hres. reflexivity.
Defined.

(** ** From addEvent to getEvent *)

Lemma saveEvent_table event q :
  m_events (state_of (saveEvent event q))
  = <[result (saveEvent event q) := event]> (m_events q).
Proof. rewrite saveEvent_unfold. by destruct (last (m_oldEventIDs q)). Qed.

(** X23 (an accepted event comes back unchanged).  In a reachable state
    holding fewer than [2^32] events, when the buffer accepts the id of an
    event of a non-reserved type and later yields that id with the User
    verdict, getEvent returns true with exactly the event that was added;
    the event-data table is then as it was before addEvent, the id is on
    top of the free-id stack, and the payload-deletion hook has not been
    called. *)
Theorem addEvent_getEvent_echo timeout timer now_sweep now out event q A :
  reachable q A →
  Z.of_nat (size (m_events q)) < 2 ^ 32 →
  is_reserved (CEvent.getType event) = false →
  let eventID := result (saveEvent event q) in
  let sent := IEventQueueBuffer.addEvent eventID (m_buffer q) in
  let got := IEventQueueBuffer.getEvent out sent.2 in
  sent.1 = true →
  IEventQueueBuffer.isEmpty sent.2 = false →
  got.1.1.1 = IEventQueueBuffer.kUser →
  got.1.2 = eventID →
  let added := addEvent event q in
  let r := getEvent_pass timeout timer now_sweep now out (state_of added) in
  result r = (Return true, event) ∧
  m_events (state_of r) = m_events q ∧
  last (m_oldEventIDs (state_of r)) = Some eventID ∧
  trace added ++ trace r = [].
Proof.
  intros Hq Hsize Hres eventID sent got Hok Hne Huser Hid added r.
  pose proof (saveEvent_fresh_id event q A Hq Hsize) as Hfresh. fold eventID in Hfresh.
  pose proof (saveEvent_table event q) as Htable. fold eventID in Htable.
  assert (Hadded : added =
    (tt, set_buffer (λ _, sent.2) (state_of (saveEvent event q)), [])).
  { subst added. rewrite addEvent_unfold, Hres. cbv zeta.
    rewrite saveEvent_buffer. fold eventID sent. by rewrite Hok. }
  subst r. rewrite Hadded, state_of_mk, trace_mk.
  set (q1 := set_buffer (λ _, sent.2) (state_of (saveEvent event q))).
  rewrite (getEvent_pass_buffered timeout timer now_sweep now out q1 Hne).
  cbv zeta. change (m_buffer q1) with sent.2. fold got. rewrite Huser, Hid.
  rewrite removeEvent_unfold.
  cbn [m_events set_buffer]. change (m_events q1) with (m_events (state_of (saveEvent event q))).
  rewrite Htable, lookup_insert_eq, !result_mk, !state_of_mk, ?trace_mk.
  subst q1.
  cbn [m_events m_oldEventIDs set_events set_oldEventIDs set_buffer].
  rewrite Htable, delete_insert_id by exact Hfresh.
  split; [reflexivity|]. split; [reflexivity|]. split; [apply last_snoc|reflexivity].
Qed.

Lemma addEvent_getEvent_echo_witness :
  let event := CEvent.make 5 7 42 in
  let q := CEventQueue.new 0 100 in
  let r := getEvent_pass 1 (CStopwatch.start 0) 0 0 CEvent.default
             (state_of (addEvent event q)) in
  reachable q ∅ ∧
  result r = (Return true, event) ∧
  m_events (state_of r) = m_events q.
Proof.
  intros event q r.
  assert (Hq : reachable q ∅) by exact (reach_new 0 100).
  split; [exact Hq|].
  destruct (addEvent_getEvent_echo 1 (CStopwatch.start 0) 0 0 CEvent.default
              event q ∅ Hq) as (Hres & Htable & _);
    try reflexivity.
  split; [exact Hres | exact Htable].
Defined.
